(** * DissMatch: matching students to supervisors

  A shallow embedding of [DissMatch.py] and the properties of its
  assignment model.  The script reads two sheets (supervisors and
  students), normalises the area labels, scores every
  (student, supervisor, area) triple, hands a 0/1 linear program to an
  external solver and reports on the values the solver returns.

  Conventions of the embedding:
  - a Python [str] is a [string] of 8-bit code points, read as the
    Latin-1 range U+0000..U+00FF of Unicode; the regular-expression
    classes and [str.lower] are the restriction of Python's to that range;
  - a spreadsheet cell is a [cell]: empty (NaN), a string or a number;
  - dictionaries are [gmap]s filled by successive insertion, so a repeated
    key keeps the value written last, as in Python;
  - [list(set(...))] is [elements] of a [gset]: a duplicate-free list whose
    order is left to the implementation;
  - a decision variable is identified with its dictionary key;
  - the solver is not modelled: the properties quantify over the values it
    may return. *)

From Stdlib Require Import ZArith QArith Ascii String List Lia.
From stdpp Require Import base list gmap strings fin_maps fin_sets.

Local Open Scope Z_scope.

(** ** Characters and strings *)

Module Text.

Definition code (c : ascii) : N := N_of_ascii c.

Definition between (lo hi n : N) : bool := ((lo <=? n) && (n <=? hi))%N.

(** [\s] of a Unicode pattern: the characters for which [str.isspace]
    holds; below U+0100 these are TAB..CR, FS..US, SPACE, NEL and NBSP. *)
Definition is_space (c : ascii) : bool :=
  between 9 13 (code c) || between 28 32 (code c)
  || (code c =? 133)%N || (code c =? 160)%N.

(** [\d] of a Unicode pattern: the decimal digits; below U+0100 only 0..9. *)
Definition is_digit (c : ascii) : bool := between 48 57 (code c).

(** The character class [[\s\d\.,]]. *)
Definition in_class (c : ascii) : bool :=
  is_space c || is_digit c || (code c =? 46)%N || (code c =? 44)%N.

(** [re.sub(r'[\s\d\.,]+', '', text)]: every maximal run of class
    characters is replaced by the empty string, which leaves exactly the
    characters outside the class, in order. *)
Fixpoint sub_class (s : string) : string :=
  match s with
  | EmptyString => EmptyString
  | String c r => if in_class c then sub_class r else String c (sub_class r)
  end.

(** [str.lower] on one code point below U+0100: A..Z and the accented
    capitals U+00C0..U+00DE (without the multiplication sign U+00D7) move
    up by 32. *)
Definition lower_char (c : ascii) : ascii :=
  if between 65 90 (code c)
     || (between 192 222 (code c) && negb (code c =? 215)%N)
  then ascii_of_N (code c + 32)
  else c.

Fixpoint lower (s : string) : string :=
  match s with
  | EmptyString => EmptyString
  | String c r => String (lower_char c) (lower r)
  end.

End Text.

(** ** Cells and areas *)

(** A value read from a sheet.  [pd.notnull] is false exactly on [CNull]. *)
Inductive cell : Type :=
  | CNull
  | CStr (s : string)
  | CNum (z : Z).

Global Instance cell_eq_dec : EqDecision cell.
Proof. solve_decision. Defined.

Global Instance cell_countable : Countable cell.
Proof.
  refine (inj_countable'
    (λ c, match c with
          | CNull => inl ()
          | CStr s => inr (inl s)
          | CNum z => inr (inr z)
          end)
    (λ e, match e with
          | inl _ => CNull
          | inr (inl s) => CStr s
          | inr (inr z) => CNum z
          end) _).
  by intros [].
Defined.

Definition notnull (c : cell) : bool :=
  match c with CNull => false | _ => true end.

(** [remove_numbers] is defined by the script and never called. *)

(** [normalize_area]: strings lose digits, white space, dots and commas and
    are lowercased; anything that is not a string is returned as it is. *)
Definition normalize_area (text : cell) : cell :=
  match text with
  | CStr s => CStr (Text.lower (Text.sub_class s))
  | other => other
  end.

(** ** The two input sheets *)

(** A row of the first sheet: the columns [name], [workload] and
    [area1] .. [area5] the script reads. *)
Record supervisor_row : Type := {
  sup_name : string;
  sup_workload : Z;
  area1 : cell;
  area2 : cell;
  area3 : cell;
  area4 : cell;
  area5 : cell
}.

(** A row of the second sheet: the [name] and the cells of the other
    columns, in the order of [columns].  The header [name] itself does not
    start with [proposal_], so [columns] leaves it out. *)
Record student_row : Type := {
  stu_name : string;
  stu_cells : list cell
}.

Record students_sheet : Type := {
  columns : list string;
  rows : list student_row
}.

Record workbook : Type := {
  supervisors : list supervisor_row;
  students : students_sheet
}.

(** [row[col]] on a student row; a cell the sheet does not hold reads as NaN. *)
Fixpoint row_get (cols : list string) (cells : list cell) (col : string) : cell :=
  match cols, cells with
  | c :: cols', v :: cells' => if decide (c = col) then v else row_get cols' cells' col
  | _, _ => CNull
  end.

(** [[row[col] for col in supervisor_area_cols]]. *)
Definition area_cells (row : supervisor_row) : list cell :=
  [area1 row; area2 row; area3 row; area4 row; area5 row].

(** A dictionary filled in iteration order: a later item overwrites an
    earlier one with the same key. *)
Definition dict `{Countable K} {V} (items : list (K * V)) : gmap K V :=
  foldl (λ d kv, <[kv.1 := kv.2]> d) ∅ items.

(** ** The linear program and the solver's values *)

(** The key [(student, supervisor, area)] of the dictionaries [x] and
    [satisfaction]. *)
Definition key : Type := string * string * cell.

Inductive LpCategory : Type := LpBinary | LpInteger | LpContinuous.

Record LpVariable : Type := {
  var_key : key;
  lowBound : Z;
  upBound : Z;
  cat : LpCategory
}.

(** A sum of terms [coefficient * variable]. *)
Definition LpAffineExpression : Type := list (Z * key).

Inductive LpSense : Type := LpConstraintLE | LpConstraintEQ.

Record LpConstraint : Type := {
  lhs : LpAffineExpression;
  sense : LpSense;
  rhs : Z
}.

Record LpProblem : Type := {
  objective : LpAffineExpression;
  constraints : list LpConstraint
}.

(** The value of an expression under an assignment of integers. *)
Definition value (sol : key → Z) (e : LpAffineExpression) : Z :=
  foldr (λ t acc, t.1 * sol t.2 + acc) 0 e.

Definition holds (sol : key → Z) (c : LpConstraint) : Prop :=
  match sense c with
  | LpConstraintLE => value sol (lhs c) ≤ rhs c
  | LpConstraintEQ => value sol (lhs c) = rhs c
  end.

(** [varValue] of every variable after [prob.solve()]: a float, or [None]
    when the solver set none. *)
Definition varValues : Type := key → option Q.

(** The values read back from an integer solution. *)
Definition values_of (sol : key → Z) : varValues := λ k, Some (inject_Z (sol k)).

(** [val is not None and val > 0.5]. *)
Definition selected (vals : varValues) (k : key) : bool :=
  match vals k with
  | Some val => negb (Qle_bool val (1 # 2))
  | None => false
  end.

(** [len(prefs) > i and area == prefs[i]]. *)
Definition at_index (prefs : list cell) (i : nat) (area : cell) : bool :=
  match prefs !! i with
  | Some p => bool_decide (area = p)
  | None => false
  end.

(** What a run of the script ends in. *)
Inductive outcome (A : Type) : Type :=
  | Completed (a : A)
  | Raised (error : string).
Global Arguments Completed {A} a.
Global Arguments Raised {A} error.

Record match_row : Type := {
  m_student : string;
  m_supervisor : string;
  m_area : cell;
  m_student_choice : option Z
}.

Record report : Type := {
  assignments : list key;
  results : list match_row;
  total_satisfaction : Z;
  loads : list (string * nat * Z);
  unmatched : list string;
  supervisors_with_capacity : list (string * Z)
}.

(** ** The script *)

Section Script.

Variable wb : workbook.

(** *** 2. Prepare data *)

Definition supervisor_names : list string := sup_name <$> supervisors wb.

Definition student_names : list string := stu_name <$> rows (students wb).

Definition workload : gmap string Z :=
  dict (zip (sup_name <$> supervisors wb) (sup_workload <$> supervisors wb)).

Definition raw_areas : list cell := supervisors wb ≫= area_cells.

Definition areas : list cell :=
  elements (list_to_set (C := gset cell)
    (normalize_area <$> filter (λ a, notnull a) raw_areas)).

(** The comprehension of line 46 on one row. *)
Definition supervisor_row_prefs (row : supervisor_row) : list cell :=
  normalize_area <$> filter (λ c, notnull c) (area_cells row).

Definition supervisor_preferences : gmap string (list cell) :=
  dict ((λ row, (sup_name row, supervisor_row_prefs row)) <$> supervisors wb).

Definition student_area_cols : list string :=
  filter (λ col, String.prefix "proposal_" col) (columns (students wb)).

(** The comprehension of line 53 on one row. *)
Definition student_row_prefs (row : student_row) : list cell :=
  normalize_area <$>
    filter (λ c, notnull c)
      (row_get (columns (students wb)) (stu_cells row) <$> student_area_cols).

Definition student_preferences : gmap string (list cell) :=
  dict ((λ row, (stu_name row, student_row_prefs row)) <$> rows (students wb)).

(** *** 4. Decision variables *)

(** The iterations of the loop over students, supervisors and areas, which
    the script runs in this order every time. *)
Definition triples : list key :=
  student ← student_names; supervisor ← supervisor_names; area ← areas;
  [(student, supervisor, area)].

Definition x : gmap key LpVariable :=
  dict ((λ k, (k, {| var_key := k; lowBound := 0; upBound := 1; cat := LpBinary |}))
        <$> triples).

(** *** 5. Satisfaction scores *)

(** A name is looked up with [!!!]: Python raises [KeyError] on a missing
    key, and every name the script passes is a key (see
    [student_preferences_lookup] and [supervisor_preferences_lookup]). *)
Definition student_points (student : string) (area : cell) : Z :=
  let prefs := student_preferences !!! student in
  if at_index prefs 0 area then 10
  else if at_index prefs 1 area then 7
  else if at_index prefs 2 area then 5
  else -10.

Definition supervisor_points (supervisor : string) (area : cell) : Z :=
  let prefs := supervisor_preferences !!! supervisor in
  if at_index prefs 0 area then 5
  else if at_index prefs 1 area then 4
  else if at_index prefs 2 area then 3
  else if at_index prefs 3 area then 2
  else if at_index prefs 4 area then 1
  else -10.

Definition satisfaction : gmap key Z :=
  dict ((λ k, (k, student_points k.1.1 k.2 + supervisor_points k.1.2 k.2))
        <$> triples).

(** *** 6. to 9. Objective and constraints *)

Definition student_constraint (student : string) : LpConstraint :=
  {| lhs := supervisor ← supervisor_names; area ← areas;
            [(1, (student, supervisor, area))];
     sense := LpConstraintLE;
     rhs := 1 |}.

Definition supervisor_constraint (supervisor : string) : LpConstraint :=
  {| lhs := student ← student_names; area ← areas;
            [(1, (student, supervisor, area))];
     sense := LpConstraintLE;
     rhs := workload !!! supervisor |}.

Definition pruning_constraint (k : key) : LpConstraint :=
  {| lhs := [(1, k)]; sense := LpConstraintEQ; rhs := 0 |}.

Definition prob : LpProblem :=
  {| objective := (λ k, (satisfaction !!! k, k)) <$> triples;
     constraints :=
       (student_constraint <$> student_names)
       ++ (supervisor_constraint <$> supervisor_names)
       ++ (pruning_constraint <$>
             filter (λ k, satisfaction !!! k = -20) triples) |}.

(** *** 10. The solver, as a relation on what it may return *)

Definition in_bounds (sol : key → Z) : Prop :=
  ∀ k v, x !! k = Some v → lowBound v ≤ sol k ≤ upBound v.

Definition feasible (sol : key → Z) : Prop :=
  in_bounds sol ∧ Forall (holds sol) (constraints prob).

Definition optimal (sol : key → Z) : Prop :=
  feasible sol ∧
  ∀ sol', feasible sol' → value sol' (objective prob) ≤ value sol (objective prob).

(** *** 12. to 14. Reading the solution back *)

(** The script prints the assignment lines, writes [results] to the sheet
    [matches] and prints its checks.  [post_solve] collects what it computes
    on the way; the two histograms of realised choices and the line "All
    students matched" are printed only and left out.  Nothing in these steps
    compares a value with the objective or raises. *)

Section PostSolve.

Variable vals : varValues.

Definition student_choice (student : string) (area : cell) : option Z :=
  let prefs := student_preferences !!! student in
  if at_index prefs 0 area then Some 1
  else if at_index prefs 1 area then Some 2
  else if at_index prefs 2 area then Some 3
  else None.

Definition count (supervisor : string) : nat :=
  length (filter (λ k, selected vals k)
            (student ← student_names; area ← areas; [(student, supervisor, area)])).

Definition assigned (student : string) : bool :=
  existsb (selected vals)
    (supervisor ← supervisor_names; area ← areas; [(student, supervisor, area)]).

Definition post_solve : outcome report :=
  Completed
    {| assignments := filter (λ k, selected vals k) triples;
       results :=
         (λ k, {| m_student := k.1.1; m_supervisor := k.1.2; m_area := k.2;
                  m_student_choice := student_choice k.1.1 k.2 |})
         <$> filter (λ k, selected vals k) triples;
       total_satisfaction :=
         foldr Z.add 0
           ((λ k, satisfaction !!! k) <$> filter (λ k, selected vals k) triples);
       loads :=
         (λ supervisor, (supervisor, count supervisor, workload !!! supervisor))
         <$> supervisor_names;
       unmatched := filter (λ student, ¬ assigned student) student_names;
       supervisors_with_capacity :=
         (λ supervisor, (supervisor, workload !!! supervisor - Z.of_nat (count supervisor)))
         <$> filter (λ supervisor, Z.of_nat (count supervisor) < workload !!! supervisor)
               supervisor_names |}.

End PostSolve.

End Script.

(** ** Notions of the specification *)

(** The rank of an area in a preference sequence: the position of its first
    occurrence, counted from 0. *)
Fixpoint rank (area : cell) (prefs : list cell) : option nat :=
  match prefs with
  | [] => None
  | p :: rest => if decide (area = p) then Some 0%nat else S <$> rank area rest
  end.

Definition student_utility (r : option nat) : Z :=
  match r with
  | Some 0%nat => 10
  | Some 1%nat => 7
  | Some 2%nat => 5
  | _ => -10
  end.

Definition supervisor_utility (r : option nat) : Z :=
  match r with
  | Some 0%nat => 5
  | Some 1%nat => 4
  | Some 2%nat => 3
  | Some 3%nat => 2
  | Some 4%nat => 1
  | _ => -10
  end.

(** The sum of [f] over the members of a list. *)
Definition sum_over {A} (l : list A) (f : A → Z) : Z :=
  foldr (λ a acc, f a + acc) 0 l.

(** A solution with one variable set to 0. *)
Definition unselect (k : key) (sol : key → Z) : key → Z :=
  λ k', if decide (k' = k) then 0 else sol k'.

(** An edge is eligible when its area occurs in both preference sequences. *)
Definition eligible (wb : workbook) (k : key) : Prop :=
  k.2 ∈ student_preferences wb !!! k.1.1 ∧ k.2 ∈ supervisor_preferences wb !!! k.1.2.

(** ** Sample workbooks *)

Module Samples.

Definition nth_cell (l : list string) (i : nat) : cell :=
  from_option CStr CNull (l !! i).

(** A supervisor row from its name, workload and area cells, left to right;
    the cells not given are empty. *)
Definition supervisor (name : string) (load : Z) (l : list string) : supervisor_row :=
  {| sup_name := name; sup_workload := load;
     area1 := nth_cell l 0; area2 := nth_cell l 1; area3 := nth_cell l 2;
     area4 := nth_cell l 3; area5 := nth_cell l 4 |}.

Definition student (name : string) (l : list string) : student_row :=
  {| stu_name := name; stu_cells := CStr <$> l |}.

(** Two students with the same first choice, one supervisor who offers it
    and one who offers something else. *)
Definition wb_shared : workbook :=
  {| supervisors :=
       [supervisor "Prof. Smith" 1 ["1. Tort Law"];
        supervisor "Prof. Lee" 1 ["2. Contract Law"]];
     students :=
       {| columns := ["proposal_1"];
          rows := [student "Alice" ["Tort law"]; student "Bob" ["tort law."]] |} |}.

Definition alice_smith : key := ("Alice", "Prof. Smith", CStr "tortlaw").
Definition bob_lee : key := ("Bob", "Prof. Lee", CStr "tortlaw").

(** Alice with Prof. Smith, Bob with Prof. Lee, both for tort law. *)
Definition sol_shared : key → Z :=
  λ k, if decide (k = alice_smith) then 1 else if decide (k = bob_lee) then 1 else 0.

(** A student with four proposals and a supervisor with five areas, and a
    supervisor without capacity. *)
Definition wb_tiers : workbook :=
  {| supervisors :=
       [supervisor "Prof. Smith" 1
          ["Tort Law"; "Contract Law"; "EU Law"; "Human Rights Law"; "Family Law"];
        supervisor "Prof. Lee" 0 ["Media Law"]];
     students :=
       {| columns := ["proposal_1"; "proposal_2"; "proposal_3"; "proposal_4"];
          rows := [student "Alice" ["Criminal Law"; "Media Law"; "Family Law"; "Tort Law"];
                   student "Bob" ["Space Law"]] |} |}.

(** Values that put Alice with Prof. Lee, who has workload 0. *)
Definition vals_over : varValues :=
  λ k, if decide (k = ("Alice", "Prof. Lee", CStr "medialaw")) then Some 1%Q else Some 0%Q.

(** One student and one supervisor who have no area in common. *)
Definition wb_apart : workbook :=
  {| supervisors := [supervisor "Prof. Smith" 1 ["Tort Law"]];
     students :=
       {| columns := ["proposal_1"];
          rows := [student "Bob" ["Space Law"]] |} |}.

Definition sol_none : key → Z := λ _, 0.

(** A student who proposes A then B and a supervisor who offers B then C. *)
Definition wb_overlap : workbook :=
  {| supervisors := [supervisor "Prof. Smith" 1 ["Area B"; "Area C"]];
     students :=
       {| columns := ["proposal_1"; "proposal_2"];
          rows := [student "Alice" ["1. Area A"; "2. Area B"]] |} |}.

End Samples.

(** ** The rest of the script *)

(** *** [remove_numbers] *)

Module Strip.

(** [re.sub(r'\d+', '', text)]: every run of decimal digits is replaced by
    the empty string. *)
Fixpoint sub_digits (s : string) : string :=
  match s with
  | EmptyString => EmptyString
  | String c r => if Text.is_digit c then sub_digits r else String c (sub_digits r)
  end.

(** [str.lstrip()]: the leading white space goes. *)
Fixpoint lstrip (s : string) : string :=
  match s with
  | EmptyString => EmptyString
  | String c r => if Text.is_space c then lstrip r else s
  end.

(** [str.rstrip()]: the trailing white space goes. *)
Fixpoint rstrip (s : string) : string :=
  match s with
  | EmptyString => EmptyString
  | String c r =>
      match rstrip r with
      | EmptyString => if Text.is_space c then EmptyString else String c EmptyString
      | String c' r' => String c (String c' r')
      end
  end.

(** [str.strip()]. *)
Definition strip (s : string) : string := rstrip (lstrip s).

(** The first and the last character of a string. *)
Definition first_char (s : string) : option ascii :=
  match s with EmptyString => None | String c _ => Some c end.

Fixpoint last_char (s : string) : option ascii :=
  match s with
  | EmptyString => None
  | String c EmptyString => Some c
  | String _ r => last_char r
  end.

(** Every character of the string satisfies the test. *)
Fixpoint all_chars (p : ascii → bool) (s : string) : bool :=
  match s with
  | EmptyString => true
  | String c r => p c && all_chars p r
  end.

End Strip.

(** Defined in lines 14 to 17 and called nowhere. *)
Definition remove_numbers (text : cell) : cell :=
  match text with
  | CStr s => CStr (Strip.strip (Strip.sub_digits s))
  | other => other
  end.

(** *** The checks printed in step 14 *)

Section Checks.

Variable wb : workbook.
Variable vals : varValues.

(** The counters [first, second, third, other] of the student check, after
    one more iteration of the loop. *)
Definition student_tally (c : nat * nat * nat * nat) (k : key) : nat * nat * nat * nat :=
  let '(first, second, third, other) := c in
  if selected vals k then
    let prefs := student_preferences wb !!! k.1.1 in
    if at_index prefs 0 k.2 then (S first, second, third, other)
    else if at_index prefs 1 k.2 then (first, S second, third, other)
    else if at_index prefs 2 k.2 then (first, second, S third, other)
    else (first, second, third, S other)
  else c.

Definition student_choice_counts : nat * nat * nat * nat :=
  foldl student_tally (0, 0, 0, 0)%nat (triples wb).

(** The counters [first, second, third, fourth, fifth, other] of the
    supervisor check. *)
Definition supervisor_tally (c : nat * nat * nat * nat * nat * nat) (k : key)
    : nat * nat * nat * nat * nat * nat :=
  let '(first, second, third, fourth, fifth, other) := c in
  if selected vals k then
    let prefs := supervisor_preferences wb !!! k.1.2 in
    if at_index prefs 0 k.2 then (S first, second, third, fourth, fifth, other)
    else if at_index prefs 1 k.2 then (first, S second, third, fourth, fifth, other)
    else if at_index prefs 2 k.2 then (first, second, S third, fourth, fifth, other)
    else if at_index prefs 3 k.2 then (first, second, third, S fourth, fifth, other)
    else if at_index prefs 4 k.2 then (first, second, third, fourth, S fifth, other)
    else (first, second, third, fourth, fifth, S other)
  else c.

Definition supervisor_choice_counts : nat * nat * nat * nat * nat * nat :=
  foldl supervisor_tally (0, 0, 0, 0, 0, 0)%nat (triples wb).

(** The set filled in lines 245 to 250. *)
Definition assigned_students : gset string :=
  foldl (λ acc k, if selected vals k then {[k.1.1]} ∪ acc else acc) ∅ (triples wb).

(** The value printed after "All students matched:". *)
Definition all_students_matched : bool :=
  bool_decide (size assigned_students = length (student_names wb)).

End Checks.

(** The students' 10, 7, 5, -10 and the supervisors' 5, 4, 3, 2, 1, -10
    applied to the counters. *)
Definition student_counts_score (c : nat * nat * nat * nat) : Z :=
  let '(first, second, third, other) := c in
  10 * Z.of_nat first + 7 * Z.of_nat second + 5 * Z.of_nat third - 10 * Z.of_nat other.

Definition supervisor_counts_score (c : nat * nat * nat * nat * nat * nat) : Z :=
  let '(first, second, third, fourth, fifth, other) := c in
  5 * Z.of_nat first + 4 * Z.of_nat second + 3 * Z.of_nat third
  + 2 * Z.of_nat fourth + 1 * Z.of_nat fifth - 10 * Z.of_nat other.

Definition student_counts_total (c : nat * nat * nat * nat) : nat :=
  let '(first, second, third, other) := c in (first + second + third + other)%nat.

Definition supervisor_counts_total (c : nat * nat * nat * nat * nat * nat) : nat :=
  let '(first, second, third, fourth, fifth, other) := c in
  (first + second + third + fourth + fifth + other)%nat.

(** The solution that selects nothing. *)
Definition sol_zero : key → Z := λ _, 0.

(** Further sample workbooks. *)
Module MoreSamples.

(** A supervisor row with the first two area cells given. *)
Definition supervisor_cells (name : string) (load : Z) (c1 c2 : cell) : supervisor_row :=
  {| sup_name := name; sup_workload := load;
     area1 := c1; area2 := c2; area3 := CNull; area4 := CNull; area5 := CNull |}.

(** Prof. Smith left the first area cell empty. *)
Definition wb_gap : workbook :=
  {| supervisors := [supervisor_cells "Prof. Smith" 1 CNull (CStr "Tort Law")];
     students :=
       {| columns := ["proposal_1"];
          rows := [Samples.student "Alice" ["Tort Law"]] |} |}.

(** Prof. Smith has two rows. *)
Definition wb_twice : workbook :=
  {| supervisors :=
       [Samples.supervisor "Prof. Smith" 1 ["Tort Law"];
        Samples.supervisor "Prof. Smith" 3 ["Contract Law"]];
     students :=
       {| columns := ["proposal_1"];
          rows := [Samples.student "Alice" ["Tort Law"]] |} |}.

(** The supervisors' sheet is empty. *)
Definition wb_no_supervisor : workbook :=
  {| supervisors := [];
     students :=
       {| columns := ["proposal_1"];
          rows := [Samples.student "Alice" ["Tort Law"]] |} |}.

(** The proposal column is spelt with a capital. *)
Definition wb_capitalised : workbook :=
  {| supervisors := [Samples.supervisor "Prof. Smith" 1 ["Tort Law"]];
     students :=
       {| columns := ["Proposal_1"];
          rows := [Samples.student "Alice" ["Tort Law"]] |} |}.

End MoreSamples.

(** ** Tactics *)

(** Replaces a closed term by its value everywhere. *)
Ltac evaluate t := let v := eval vm_compute in t in change t with v in *.

(** * Properties *)

(** ** The normaliser, character by character *)

Section Normalizer.

Lemma lower_char_idem c : Text.lower_char (Text.lower_char c) = Text.lower_char c.
Proof. by destruct c as [[] [] [] [] [] [] [] []]. Qed.

(** Lowercasing moves no character into or out of the stripped class. *)
Lemma lower_char_class c : Text.in_class (Text.lower_char c) = Text.in_class c.
Proof. by destruct c as [[] [] [] [] [] [] [] []]. Qed.

Lemma lower_idem s : Text.lower (Text.lower s) = Text.lower s.
Proof. induction s as [|c r IH]; simpl; [done|]. by rewrite lower_char_idem, IH. Qed.

Lemma sub_class_lower s : Text.sub_class (Text.lower s) = Text.lower (Text.sub_class s).
Proof.
  induction s as [|c r IH]; simpl; [done|].
  rewrite lower_char_class. destruct (Text.in_class c); simpl; by rewrite IH.
Qed.

Lemma sub_class_idem s : Text.sub_class (Text.sub_class s) = Text.sub_class s.
Proof.
  induction s as [|c r IH]; simpl; [done|].
  destruct (Text.in_class c) eqn:E; simpl; [done|]. by rewrite E, IH.
Qed.

End Normalizer.


(** ** Dictionaries *)

Section Dict.

Context `{Countable K} {V : Type}.
Implicit Types (items : list (K * V)) (k : K) (v : V).

Lemma dict_snoc items k v : dict (items ++ [(k, v)]) = <[k := v]> (dict items).
Proof. unfold dict. by rewrite foldl_snoc. Qed.

Lemma dict_lookup_Some items k v : dict items !! k = Some v → (k, v) ∈ items.
Proof.
  induction items as [|[k' v'] items IH] using rev_ind; [done|].
  rewrite dict_snoc, lookup_insert. case_decide; simplify_eq; set_solver.
Qed.

Lemma dict_lookup_None items k : k ∉ items.*1 → dict items !! k = None.
Proof.
  induction items as [|[k' v'] items IH] using rev_ind; [done|].
  rewrite fmap_app, dict_snoc. intros Hk.
  rewrite lookup_insert_ne; set_solver.
Qed.

Lemma dict_lookup_is_Some items k : k ∈ items.*1 → is_Some (dict items !! k).
Proof.
  induction items as [|[k' v'] items IH] using rev_ind; [by intros ?%elem_of_nil|].
  rewrite fmap_app, dict_snoc, lookup_insert. case_decide; [by eauto|].
  set_solver.
Qed.

(** The item written last is the one read. *)
Lemma dict_last_wins items k v : dict (items ++ [(k, v)]) !! k = Some v.
Proof. by rewrite dict_snoc, lookup_insert_eq. Qed.

(** A dictionary whose values are a function of the key. *)
Lemma dict_graph_lookup (f : K → V) (l : list K) k :
  k ∈ l → dict ((λ k, (k, f k)) <$> l) !! k = Some (f k).
Proof.
  intros Hk.
  destruct (dict_lookup_is_Some ((λ k, (k, f k)) <$> l) k) as [v Hv].
  { rewrite <-list_fmap_compose. by rewrite list_fmap_id. }
  rewrite Hv. apply dict_lookup_Some in Hv.
  apply list_elem_of_fmap in Hv as (k' & [= -> ->] & _). done.
Qed.

Lemma dict_graph_dom (f : K → V) (l : list K) k :
  is_Some (dict ((λ k, (k, f k)) <$> l) !! k) ↔ k ∈ l.
Proof.
  split.
  - intros [v Hv%dict_lookup_Some].
    by apply list_elem_of_fmap in Hv as (k' & [= -> ->] & ?).
  - intros Hk. rewrite dict_graph_lookup; eauto.
Qed.

(** A dictionary made from the rows of a sheet: every name of the sheet is a
    key, and its value comes from a row of that name. *)
Lemma dict_rows_lookup {R} (name : R → K) (g : R → V) (l : list R) k :
  k ∈ name <$> l →
  ∃ row, row ∈ l ∧ name row = k ∧ dict ((λ row, (name row, g row)) <$> l) !! k = Some (g row).
Proof.
  intros Hk.
  destruct (dict_lookup_is_Some ((λ row, (name row, g row)) <$> l) k) as [v Hv].
  { by rewrite <-list_fmap_compose. }
  pose proof Hv as Hin%dict_lookup_Some.
  apply list_elem_of_fmap in Hin as (row & [= -> ->] & Hrow). eauto.
Qed.

Lemma dict_rows_lookup_inv {R} (name : R → K) (g : R → V) (l : list R) k v :
  dict ((λ row, (name row, g row)) <$> l) !! k = Some v →
  ∃ row, row ∈ l ∧ name row = k ∧ v = g row.
Proof.
  intros Hin%dict_lookup_Some.
  apply list_elem_of_fmap in Hin as (row & [= -> ->] & Hrow). eauto.
Qed.

(** With distinct names, the value is that of the row itself. *)
Lemma dict_rows_lookup_NoDup {R} (name : R → K) (g : R → V) (l : list R) row :
  NoDup (name <$> l) → row ∈ l →
  dict ((λ row, (name row, g row)) <$> l) !! name row = Some (g row).
Proof.
  intros Hnd Hrow.
  destruct (dict_rows_lookup name g l (name row)) as (row' & Hrow' & Hname & ->).
  { by apply list_elem_of_fmap_2. }
  f_equal. f_equal.
  apply list_elem_of_lookup in Hrow as [i Hi], Hrow' as [j Hj].
  assert (i = j) as ->; [|congruence].
  eapply NoDup_lookup; [done| |]; rewrite list_lookup_fmap.
  - by rewrite Hi.
  - rewrite Hj. simpl. by rewrite Hname.
Qed.

End Dict.

(** ** The prepared data *)

Section Prepared.

Context (wb : workbook).

Lemma notnull_spec c : notnull c ↔ c ≠ CNull.
Proof. by destruct c. Qed.

Lemma zip_fmap_rows {R A B} (f : R → A) (g : R → B) (l : list R) :
  zip (f <$> l) (g <$> l) = (λ r, (f r, g r)) <$> l.
Proof. induction l; simpl; by f_equal. Qed.

(** Reading the cells of the chosen columns by name is taking them from the
    row in column order. *)
Lemma row_get_columns (P : string → Prop) `{∀ c, Decision (P c)}
    (cols : list string) (cells : list cell) :
  NoDup cols → length cells = length cols →
  row_get cols cells <$> filter P cols = (filter (λ p, P p.1) (zip cols cells)).*2.
Proof.
  revert cells. induction cols as [|c cols IH]; intros [|v cells] Hnd Hlen;
    [done..|].
  injection Hlen as Hlen. apply NoDup_cons in Hnd as [Hc Hnd].
  assert (row_get (c :: cols) (v :: cells) <$> filter P cols
          = row_get cols cells <$> filter P cols) as Htail.
  { apply list_fmap_ext. intros i col Hcol%list_elem_of_lookup_2.
    apply list_elem_of_filter in Hcol as [_ Hcol]. simpl.
    rewrite decide_False; [done|]. by intros ->. }
  change (zip (c :: cols) (v :: cells)) with ((c, v) :: zip cols cells).
  rewrite !filter_cons. cbn [fst].
  destruct (decide (P c)).
  - rewrite !fmap_cons, Htail, IH by done. cbn [snd row_get].
    by rewrite decide_True.
  - by rewrite Htail, IH.
Qed.

Lemma elem_of_student_row_prefs row a :
  a ∈ student_row_prefs wb row ↔
  ∃ col, col ∈ columns (students wb) ∧ String.prefix "proposal_" col
         ∧ row_get (columns (students wb)) (stu_cells row) col ≠ CNull
         ∧ a = normalize_area (row_get (columns (students wb)) (stu_cells row) col).
Proof.
  unfold student_row_prefs, student_area_cols.
  rewrite list_elem_of_fmap. setoid_rewrite list_elem_of_filter.
  setoid_rewrite list_elem_of_fmap. setoid_rewrite list_elem_of_filter.
  setoid_rewrite notnull_spec. naive_solver.
Qed.

Lemma elem_of_supervisor_row_prefs row a :
  a ∈ supervisor_row_prefs row ↔
  ∃ c, c ∈ area_cells row ∧ c ≠ CNull ∧ a = normalize_area c.
Proof.
  unfold supervisor_row_prefs.
  rewrite list_elem_of_fmap. setoid_rewrite list_elem_of_filter.
  setoid_rewrite notnull_spec. naive_solver.
Qed.

Lemma supervisor_row_prefs_length row : (length (supervisor_row_prefs row) ≤ 5)%nat.
Proof.
  unfold supervisor_row_prefs. rewrite length_fmap.
  etrans; [apply length_filter|]. done.
Qed.

Lemma elem_of_areas a :
  a ∈ areas wb ↔ ∃ row, row ∈ supervisors wb ∧ a ∈ supervisor_row_prefs row.
Proof.
  unfold areas, raw_areas.
  rewrite elem_of_elements, elem_of_list_to_set, list_elem_of_fmap.
  setoid_rewrite list_elem_of_filter. setoid_rewrite list_elem_of_bind.
  setoid_rewrite elem_of_supervisor_row_prefs. setoid_rewrite notnull_spec.
  naive_solver.
Qed.

Lemma NoDup_areas : NoDup (areas wb).
Proof. unfold areas. apply NoDup_elements. Qed.

Lemma elem_of_triples s v a :
  (s, v, a) ∈ triples wb ↔
  s ∈ student_names wb ∧ v ∈ supervisor_names wb ∧ a ∈ areas wb.
Proof.
  unfold triples. rewrite list_elem_of_bind.
  setoid_rewrite list_elem_of_bind. setoid_rewrite list_elem_of_bind.
  setoid_rewrite list_elem_of_singleton. naive_solver.
Qed.

(** No dictionary access of the script raises [KeyError]. *)
Lemma student_preferences_lookup s :
  s ∈ student_names wb →
  ∃ row, row ∈ rows (students wb) ∧ stu_name row = s
         ∧ student_preferences wb !! s = Some (student_row_prefs wb row).
Proof. apply dict_rows_lookup. Qed.

Lemma supervisor_preferences_lookup v :
  v ∈ supervisor_names wb →
  ∃ row, row ∈ supervisors wb ∧ sup_name row = v
         ∧ supervisor_preferences wb !! v = Some (supervisor_row_prefs row).
Proof. apply dict_rows_lookup. Qed.

(** With distinct names, the dictionaries hold every row's own sequence. *)
Lemma supervisor_preferences_row row :
  NoDup (supervisor_names wb) → row ∈ supervisors wb →
  supervisor_preferences wb !!! sup_name row = supervisor_row_prefs row.
Proof.
  intros Hnd Hrow. rewrite lookup_total_alt.
  unfold supervisor_preferences.
  by rewrite (dict_rows_lookup_NoDup sup_name supervisor_row_prefs).
Qed.

Lemma student_preferences_row row :
  NoDup (student_names wb) → row ∈ rows (students wb) →
  student_preferences wb !!! stu_name row = student_row_prefs wb row.
Proof.
  intros Hnd Hrow. rewrite lookup_total_alt.
  unfold student_preferences.
  by rewrite (dict_rows_lookup_NoDup stu_name (student_row_prefs wb)).
Qed.

Lemma workload_lookup v :
  v ∈ supervisor_names wb →
  ∃ row, row ∈ supervisors wb ∧ sup_name row = v
         ∧ workload wb !! v = Some (sup_workload row).
Proof. unfold workload. rewrite zip_fmap_rows. apply dict_rows_lookup. Qed.

Lemma x_lookup k :
  k ∈ triples wb →
  x wb !! k = Some {| var_key := k; lowBound := 0; upBound := 1; cat := LpBinary |}.
Proof.
  apply (dict_graph_lookup
    (λ k, {| var_key := k; lowBound := 0; upBound := 1; cat := LpBinary |})).
Qed.

Lemma x_dom k : is_Some (x wb !! k) ↔ k ∈ triples wb.
Proof. apply dict_graph_dom. Qed.

Lemma satisfaction_lookup k :
  k ∈ triples wb →
  satisfaction wb !! k
  = Some (student_points wb k.1.1 k.2 + supervisor_points wb k.1.2 k.2).
Proof.
  apply (dict_graph_lookup
    (λ k, student_points wb k.1.1 k.2 + supervisor_points wb k.1.2 k.2)).
Qed.

Lemma satisfaction_total k :
  k ∈ triples wb →
  satisfaction wb !!! k = student_points wb k.1.1 k.2 + supervisor_points wb k.1.2 k.2.
Proof. intros Hk. by rewrite lookup_total_alt, satisfaction_lookup. Qed.

Lemma supervisor_preferences_length v :
  (length (supervisor_preferences wb !!! v) ≤ 5)%nat.
Proof.
  rewrite lookup_total_alt.
  destruct (supervisor_preferences wb !! v) as [prefs|] eqn:E; simpl; [|lia].
  apply dict_rows_lookup_inv in E as (row & _ & _ & ->).
  apply supervisor_row_prefs_length.
Qed.

End Prepared.

(** ** Ranks and the two score functions *)

Section Scores.

Implicit Types (prefs : list cell) (area : cell).

Lemma at_index_spec prefs i area : at_index prefs i area ↔ prefs !! i = Some area.
Proof.
  unfold at_index. destruct (prefs !! i) as [p|]; [|naive_solver].
  rewrite bool_decide_spec. naive_solver.
Qed.

(** The rank is the first position that holds the area. *)
Lemma rank_Some area prefs r :
  rank area prefs = Some r ↔
  prefs !! r = Some area ∧ ∀ j, (j < r)%nat → prefs !! j ≠ Some area.
Proof.
  revert r. induction prefs as [|p rest IH]; intros r; simpl; [naive_solver|].
  destruct (decide (area = p)) as [->|Hne].
  - split.
    + intros [= <-]. split; [done|lia].
    + intros [Hr Hfirst]. destruct r as [|r]; [done|].
      by destruct (Hfirst 0%nat); [lia|].
  - rewrite fmap_Some. split.
    + intros (r' & [Hr' Hfirst]%IH & ->). split; [done|].
      intros [|j] Hj; simpl; [congruence|]. apply Hfirst. lia.
    + intros [Hr Hfirst]. destruct r as [|r]; simpl in *; [congruence|].
      exists r. split; [|done]. apply IH. split; [done|].
      intros j Hj. apply (Hfirst (S j)). lia.
Qed.

Lemma rank_None area prefs : rank area prefs = None ↔ area ∉ prefs.
Proof.
  induction prefs as [|p rest IH]; simpl; [set_solver|].
  destruct (decide (area = p)) as [->|Hne]; [set_solver|].
  rewrite fmap_None, IH. set_solver.
Qed.

Lemma rank_is_Some area prefs : is_Some (rank area prefs) ↔ area ∈ prefs.
Proof.
  rewrite <-not_eq_None_Some, rank_None.
  destruct (decide (area ∈ prefs)); naive_solver.
Qed.

Lemma rank_lt_length area prefs r : rank area prefs = Some r → (r < length prefs)%nat.
Proof. intros [Hr _]%rank_Some. by eapply lookup_lt_Some. Qed.

(** Without a repeated area, rank and position are the same thing. *)
Lemma rank_NoDup area prefs r :
  NoDup prefs → prefs !! r = Some area → rank area prefs = Some r.
Proof.
  intros Hnd Hr. apply rank_Some. split; [done|].
  intros j Hj Hj'. pose proof (NoDup_lookup _ _ _ _ Hnd Hj' Hr). lia.
Qed.

(** A repeated area has the rank of its first occurrence. *)
Lemma rank_repeated :
  rank (CStr "a") [CStr "a"; CStr "b"; CStr "c"; CStr "a"] = Some 0%nat.
Proof. reflexivity. Qed.

Lemma rank_0 area prefs : rank area prefs = Some 0%nat ↔ at_index prefs 0 area.
Proof. rewrite at_index_spec, rank_Some. split; [naive_solver|]. split; [done|lia]. Qed.

Lemma rank_S area prefs r :
  ¬ (∃ j, (j ≤ r)%nat ∧ at_index prefs j area) →
  rank area prefs = Some (S r) ↔ at_index prefs (S r) area.
Proof.
  intros Hno. rewrite at_index_spec, rank_Some. split; [naive_solver|].
  intros Hr. split; [done|]. intros j Hj Hj'. apply Hno. exists j.
  rewrite at_index_spec. split; [lia|done].
Qed.

Lemma rank_gt area prefs r n :
  (∀ j, (j ≤ n)%nat → ¬ at_index prefs j area) →
  rank area prefs = Some r → (n < r)%nat.
Proof.
  intros Hno [Hr _]%rank_Some.
  destruct (decide (r ≤ n)%nat) as [Hle|]; [|lia].
  destruct (Hno r Hle). by apply at_index_spec.
Qed.

Lemma student_cascade prefs area :
  (if at_index prefs 0 area then 10
   else if at_index prefs 1 area then 7
   else if at_index prefs 2 area then 5
   else -10) = student_utility (rank area prefs).
Proof.
  destruct (at_index prefs 0 area) eqn:E0.
  { apply Is_true_true, rank_0 in E0. by rewrite E0. }
  apply Is_true_false in E0.
  destruct (at_index prefs 1 area) eqn:E1.
  { apply Is_true_true, rank_S in E1 as ->; [done|].
    intros (j & Hj & ?). by assert (j = 0)%nat as -> by lia. }
  apply Is_true_false in E1.
  destruct (at_index prefs 2 area) eqn:E2.
  { apply Is_true_true, rank_S in E2 as ->; [done|].
    intros (j & Hj & ?). destruct j as [|[|j]]; [done|done|lia]. }
  apply Is_true_false in E2.
  destruct (rank area prefs) as [r|] eqn:Er; [|done].
  apply (rank_gt _ _ _ 2%nat) in Er.
  - by destruct r as [|[|[|r]]]; [lia..|].
  - intros [|[|[|j]]] ?; [done..|lia].
Qed.

Lemma supervisor_cascade prefs area :
  (if at_index prefs 0 area then 5
   else if at_index prefs 1 area then 4
   else if at_index prefs 2 area then 3
   else if at_index prefs 3 area then 2
   else if at_index prefs 4 area then 1
   else -10) = supervisor_utility (rank area prefs).
Proof.
  destruct (at_index prefs 0 area) eqn:E0.
  { apply Is_true_true, rank_0 in E0. by rewrite E0. }
  apply Is_true_false in E0.
  destruct (at_index prefs 1 area) eqn:E1.
  { apply Is_true_true, rank_S in E1 as ->; [done|].
    intros (j & Hj & ?). by assert (j = 0)%nat as -> by lia. }
  apply Is_true_false in E1.
  destruct (at_index prefs 2 area) eqn:E2.
  { apply Is_true_true, rank_S in E2 as ->; [done|].
    intros (j & Hj & ?). destruct j as [|[|j]]; [done|done|lia]. }
  apply Is_true_false in E2.
  destruct (at_index prefs 3 area) eqn:E3.
  { apply Is_true_true, rank_S in E3 as ->; [done|].
    intros (j & Hj & ?). destruct j as [|[|[|j]]]; [done..|lia]. }
  apply Is_true_false in E3.
  destruct (at_index prefs 4 area) eqn:E4.
  { apply Is_true_true, rank_S in E4 as ->; [done|].
    intros (j & Hj & ?). destruct j as [|[|[|[|j]]]]; [done..|lia]. }
  apply Is_true_false in E4.
  destruct (rank area prefs) as [r|] eqn:Er; [|done].
  apply (rank_gt _ _ _ 4%nat) in Er.
  - by destruct r as [|[|[|[|[|r]]]]]; [lia..|].
  - intros [|[|[|[|[|j]]]]] ?; [done..|lia].
Qed.

End Scores.

(** ** Linear expressions *)

Section Expressions.

Implicit Types (sol : key → Z) (e : LpAffineExpression) (k : key).

Lemma value_cons sol c k e : value sol ((c, k) :: e) = c * sol k + value sol e.
Proof. done. Qed.

Lemma value_app sol e1 e2 : value sol (e1 ++ e2) = value sol e1 + value sol e2.
Proof.
  induction e1 as [|[c k] e1 IH]; [done|].
  rewrite <-app_comm_cons, !value_cons, IH. lia.
Qed.

Lemma value_bind {A} sol (l : list A) (f : A → LpAffineExpression) :
  value sol (l ≫= f) = sum_over l (λ a, value sol (f a)).
Proof.
  induction l as [|a l IH]; [done|].
  change ((a :: l) ≫= f) with (f a ++ (l ≫= f)).
  rewrite value_app, IH. done.
Qed.

Lemma sum_over_ext {A} (l : list A) (f g : A → Z) :
  (∀ a, a ∈ l → f a = g a) → sum_over l f = sum_over l g.
Proof.
  induction l as [|a l IH]; intros Hfg; simpl; [done|].
  rewrite Hfg, IH; [done| |]; set_solver.
Qed.

Lemma sum_over_le {A} (l : list A) (f g : A → Z) :
  (∀ a, a ∈ l → f a ≤ g a) → sum_over l f ≤ sum_over l g.
Proof.
  induction l as [|a l IH]; intros Hfg; simpl; [done|].
  assert (f a ≤ g a) by (apply Hfg; set_solver).
  assert (sum_over l f ≤ sum_over l g) by (apply IH; set_solver). lia.
Qed.

Lemma sum_over_nonneg {A} (l : list A) (f : A → Z) :
  (∀ a, a ∈ l → 0 ≤ f a) → 0 ≤ sum_over l f.
Proof.
  induction l as [|a l IH]; intros Hf; simpl; [done|].
  assert (0 ≤ f a) by (apply Hf; set_solver).
  assert (0 ≤ sum_over l f) by (apply IH; set_solver). lia.
Qed.

Lemma sum_over_elem {A} (l : list A) (f : A → Z) a :
  (∀ a, a ∈ l → 0 ≤ f a) → a ∈ l → f a ≤ sum_over l f.
Proof.
  induction l as [|b l IH]; intros Hf Ha; [by apply elem_of_nil in Ha|]. simpl.
  assert (0 ≤ f b) by (apply Hf; set_solver).
  assert (0 ≤ sum_over l f) by (apply sum_over_nonneg; set_solver).
  apply elem_of_cons in Ha as [->|Ha]; [lia|].
  assert (f a ≤ sum_over l f) by (apply IH; set_solver). lia.
Qed.

(** Two different members of the list both count towards the sum. *)
Lemma sum_over_two {A} (l : list A) (f : A → Z) a b :
  (∀ a, a ∈ l → 0 ≤ f a) → a ∈ l → b ∈ l → a ≠ b → f a + f b ≤ sum_over l f.
Proof.
  induction l as [|c l IH]; intros Hf Ha Hb Hab; [by apply elem_of_nil in Ha|]. simpl.
  assert (0 ≤ f c) by (apply Hf; set_solver).
  assert (∀ a, a ∈ l → 0 ≤ f a) as Hf' by set_solver.
  apply elem_of_cons in Ha as [->|Ha], Hb as [->|Hb]; [done| | |].
  - pose proof (sum_over_elem l f b Hf' Hb). lia.
  - pose proof (sum_over_elem l f a Hf' Ha). lia.
  - pose proof (IH Hf' Ha Hb Hab). lia.
Qed.

Lemma selected_values_of sol k : selected (values_of sol) k ↔ 1 ≤ sol k.
Proof.
  unfold selected, values_of, Qle_bool. simpl.
  rewrite negb_True, Is_true_true, Z.leb_le. lia.
Qed.

Lemma selected_binary sol k :
  sol k = 0 ∨ sol k = 1 → sol k = if selected (values_of sol) k then 1 else 0.
Proof.
  intros Hk. destruct (selected (values_of sol) k) eqn:E.
  - apply Is_true_true, selected_values_of in E. lia.
  - apply Is_true_false in E. rewrite selected_values_of in E. lia.
Qed.

(** Counting the selected keys of a list is summing a 0/1 solution over it. *)
Lemma length_filter_selected sol (l : list key) :
  (∀ k, k ∈ l → sol k = 0 ∨ sol k = 1) →
  Z.of_nat (length (filter (λ k, selected (values_of sol) k) l)) = sum_over l sol.
Proof.
  induction l as [|k l IH]; intros Hl; [done|].
  rewrite filter_cons. simpl sum_over.
  rewrite (selected_binary sol k) by (apply Hl; set_solver).
  rewrite <-IH by set_solver.
  destruct (decide _) as [E|E].
  - apply Is_true_true in E. rewrite E. simpl length. lia.
  - apply Is_true_false in E. rewrite E. lia.
Qed.

(** The recomputed total of a 0/1 solution is the value of the weighted sum. *)
Lemma total_filter_selected sol (w : key → Z) (l : list key) :
  (∀ k, k ∈ l → sol k = 0 ∨ sol k = 1) →
  foldr Z.add 0 (w <$> filter (λ k, selected (values_of sol) k) l)
  = value sol ((λ k, (w k, k)) <$> l).
Proof.
  induction l as [|k l IH]; intros Hl; [done|].
  rewrite filter_cons, fmap_cons, value_cons.
  rewrite (selected_binary sol k) by (apply Hl; set_solver).
  rewrite <-IH by set_solver.
  destruct (decide _) as [E|E].
  - apply Is_true_true in E. rewrite E, fmap_cons, Z.mul_1_r. done.
  - apply Is_true_false in E. rewrite E. lia.
Qed.

Lemma unselect_le k sol k' : 0 ≤ sol k → unselect k sol k' ≤ sol k'.
Proof. unfold unselect. case_decide; [subst|]; lia. Qed.

Lemma value_mono sol sol' e :
  (∀ t, t ∈ e → 0 ≤ t.1) → (∀ k, sol' k ≤ sol k) → value sol' e ≤ value sol e.
Proof.
  induction e as [|[c k] e IH]; intros Hc Hsol; [done|]. rewrite !value_cons.
  assert (0 ≤ c) by (apply (Hc (c, k)); set_solver).
  assert (value sol' e ≤ value sol e) by (apply IH; set_solver).
  pose proof (Hsol k). nia.
Qed.

Lemma value_unselect_le sol (w : key → Z) (l : list key) k :
  w k * sol k ≤ 0 →
  value sol ((λ k, (w k, k)) <$> l) ≤ value (unselect k sol) ((λ k, (w k, k)) <$> l).
Proof.
  intros Hk. induction l as [|k' l IH]; [done|].
  rewrite fmap_cons, !value_cons. unfold unselect at 1.
  case_decide; [subst|]; lia.
Qed.

Lemma value_unselect_lt sol (w : key → Z) (l : list key) k :
  k ∈ l → w k * sol k < 0 →
  value sol ((λ k, (w k, k)) <$> l) < value (unselect k sol) ((λ k, (w k, k)) <$> l).
Proof.
  intros Hin Hk. induction l as [|k' l IH]; [by apply elem_of_nil in Hin|].
  rewrite fmap_cons, !value_cons. unfold unselect at 1.
  pose proof (value_unselect_le sol w l k).
  case_decide; [subst; lia|].
  apply elem_of_cons in Hin as [?|Hin]; [congruence|]. specialize (IH Hin). lia.
Qed.

End Expressions.

(** ** The model handed to the solver *)

Section Model.

Context (wb : workbook).
Implicit Types (sol : key → Z) (k : key) (c : LpConstraint).

Lemma elem_of_constraints c :
  c ∈ constraints (prob wb) ↔
    (∃ s, s ∈ student_names wb ∧ c = student_constraint wb s)
    ∨ (∃ v, v ∈ supervisor_names wb ∧ c = supervisor_constraint wb v)
    ∨ (∃ k, k ∈ triples wb ∧ satisfaction wb !!! k = -20 ∧ c = pruning_constraint k).
Proof.
  unfold prob. simpl. rewrite !elem_of_app, !list_elem_of_fmap.
  setoid_rewrite list_elem_of_filter. naive_solver.
Qed.

Lemma value_student_constraint sol s :
  value sol (lhs (student_constraint wb s))
  = sum_over (supervisor_names wb) (λ v, sum_over (areas wb) (λ a, sol (s, v, a))).
Proof.
  simpl. rewrite value_bind. apply sum_over_ext. intros v _.
  rewrite value_bind. apply sum_over_ext. intros a _.
  unfold value. simpl. lia.
Qed.

Lemma value_supervisor_constraint sol v :
  value sol (lhs (supervisor_constraint wb v))
  = sum_over (student_names wb) (λ s, sum_over (areas wb) (λ a, sol (s, v, a))).
Proof.
  simpl. rewrite value_bind. apply sum_over_ext. intros s _.
  rewrite value_bind. apply sum_over_ext. intros a _.
  unfold value. simpl. lia.
Qed.

Lemma holds_le sol c :
  sense c = LpConstraintLE → holds sol c ↔ value sol (lhs c) ≤ rhs c.
Proof. unfold holds. by intros ->. Qed.

Lemma holds_pruning_constraint sol k : holds sol (pruning_constraint k) ↔ sol k = 0.
Proof. unfold holds. simpl. lia. Qed.

Lemma constraints_hold_iff sol :
  Forall (holds sol) (constraints (prob wb)) ↔
    (∀ s, s ∈ student_names wb →
       sum_over (supervisor_names wb) (λ v, sum_over (areas wb) (λ a, sol (s, v, a))) ≤ 1)
    ∧ (∀ v, v ∈ supervisor_names wb →
       sum_over (student_names wb) (λ s, sum_over (areas wb) (λ a, sol (s, v, a)))
       ≤ workload wb !!! v)
    ∧ (∀ k, k ∈ triples wb → satisfaction wb !!! k = -20 → sol k = 0).
Proof.
  rewrite Forall_forall. setoid_rewrite elem_of_constraints.
  split.
  - intros Hall. split_and!.
    + intros s Hs. rewrite <-value_student_constraint.
      apply (Hall (student_constraint wb s)). eauto.
    + intros v Hv. rewrite <-value_supervisor_constraint.
      apply (Hall (supervisor_constraint wb v)). eauto.
    + intros k Hk Hw. apply holds_pruning_constraint. apply Hall. eauto 10.
  - intros (Hstu & Hsup & Hprune) c [(s & Hs & ->)|[(v & Hv & ->)|(k & Hk & Hw & ->)]].
    + unfold holds. rewrite value_student_constraint. simpl. auto.
    + unfold holds. rewrite value_supervisor_constraint. simpl. auto.
    + apply holds_pruning_constraint. auto.
Qed.

Lemma in_bounds_iff sol : in_bounds wb sol ↔ ∀ k, k ∈ triples wb → 0 ≤ sol k ≤ 1.
Proof.
  unfold in_bounds. split.
  - intros Hb k Hk. apply (Hb k _ (x_lookup wb k Hk)).
  - intros Hb k v Hv.
    assert (k ∈ triples wb) as Hk by (apply x_dom; eauto).
    rewrite (x_lookup wb k Hk) in Hv. injection Hv as <-. simpl. auto.
Qed.

Lemma feasible_binary sol k : feasible wb sol → k ∈ triples wb → sol k = 0 ∨ sol k = 1.
Proof. intros [Hb _] Hk. pose proof (proj1 (in_bounds_iff sol) Hb k Hk). lia. Qed.

(** Unselecting a variable keeps a solution feasible: the inequalities have
    coefficients 1 and the equalities force single variables to 0. *)
Lemma feasible_unselect sol k :
  feasible wb sol → k ∈ triples wb → feasible wb (unselect k sol).
Proof.
  intros [Hb Hc] Hk. pose proof (proj1 (in_bounds_iff sol) Hb) as Hb'.
  assert (∀ k', unselect k sol k' ≤ sol k') as Hle.
  { intros k'. apply unselect_le, Hb', Hk. }
  split.
  - apply in_bounds_iff. intros k' Hk'. unfold unselect.
    case_decide; [lia|auto].
  - rewrite Forall_forall in Hc |- *. intros c Hin. specialize (Hc c Hin).
    apply elem_of_constraints in Hin
      as [(s & Hs & ->)|[(v & Hv & ->)|(k' & Hk' & Hw & ->)]].
    + apply holds_le in Hc; [|done]. apply holds_le; [done|].
      etrans; [|exact Hc].
      apply value_mono; [|done]. simpl. intros t Ht.
      repeat (apply list_elem_of_bind in Ht as (? & Ht & _)).
      apply list_elem_of_singleton in Ht as ->. done.
    + apply holds_le in Hc; [|done]. apply holds_le; [done|].
      etrans; [|exact Hc].
      apply value_mono; [|done]. simpl. intros t Ht.
      repeat (apply list_elem_of_bind in Ht as (? & Ht & _)).
      apply list_elem_of_singleton in Ht as ->. done.
    + apply holds_pruning_constraint in Hc. apply holds_pruning_constraint.
      unfold unselect. by case_decide.
Qed.

(** An optimum selects no edge of negative weight: unselecting it would give
    a feasible solution of greater value. *)
Lemma optimal_selected_nonneg sol k :
  optimal wb sol → k ∈ triples wb → 1 ≤ sol k → 0 ≤ satisfaction wb !!! k.
Proof.
  intros [Hf Hopt] Hk Hsel.
  destruct (decide (0 ≤ satisfaction wb !!! k)) as [|Hneg]; [done|].
  specialize (Hopt _ (feasible_unselect sol k Hf Hk)).
  pose proof (value_unselect_lt sol (λ k, satisfaction wb !!! k) (triples wb) k Hk) as Hlt.
  change (objective (prob wb))
    with ((λ k, (satisfaction wb !!! k, k)) <$> triples wb) in Hopt.
  assert ((satisfaction wb !!! k) * sol k < 0) by nia.
  specialize (Hlt ltac:(done)). cbv beta in Hlt. lia.
Qed.

End Model.

(** ** Solved assignments *)

Section Solved.

Context (wb : workbook).
Implicit Types (sol : key → Z) (k : key).

Lemma sum_over_bind {A} (l : list A) (f : A → list key) (g : key → Z) :
  sum_over (l ≫= f) g = sum_over l (λ a, sum_over (f a) g).
Proof.
  induction l as [|a l IH]; [done|].
  change ((a :: l) ≫= f) with (f a ++ (l ≫= f)).
  unfold sum_over at 1. rewrite foldr_app. fold (sum_over (l ≫= f) g).
  rewrite IH. simpl. generalize (sum_over l (λ a, sum_over (f a) g)).
  induction (f a) as [|k' fa IHfa]; intros z; simpl; [done|]. rewrite IHfa. lia.
Qed.

(** In a feasible solution a student is in at most one selected edge. *)
Lemma selected_student_unique sol k1 k2 :
  feasible wb sol → k1 ∈ triples wb → k2 ∈ triples wb →
  selected (values_of sol) k1 → selected (values_of sol) k2 →
  k1.1.1 = k2.1.1 → k1 = k2.
Proof.
  intros Hf Hk1 Hk2 Hs1%selected_values_of Hs2%selected_values_of Hstu.
  destruct k1 as [[s v1] a1], k2 as [[s' v2] a2]. simpl in Hstu. subst s'.
  destruct (decide ((s, v1, a1) = (s, v2, a2))) as [|Hne]; [done|exfalso].
  pose proof Hf as [Hb Hc]. rewrite Forall_forall in Hc.
  apply elem_of_triples in Hk1 as (Hs & Hv1 & Ha1), Hk2 as (_ & Hv2 & Ha2).
  assert (holds sol (student_constraint wb s)) as Hle.
  { apply Hc, elem_of_constraints. eauto. }
  apply holds_le in Hle; [|done].
  change (value sol (lhs (student_constraint wb s)))
    with (sum_over (lhs (student_constraint wb s)) (λ t, t.1 * sol t.2)) in Hle.
  assert (∀ v a, v ∈ supervisor_names wb → a ∈ areas wb →
            (1, (s, v, a)) ∈ lhs (student_constraint wb s)) as Hin.
  { intros v a Hv Ha. simpl. apply list_elem_of_bind. exists v. split; [|done].
    apply list_elem_of_bind. exists a. split; [|done]. by apply list_elem_of_singleton. }
  pose proof (sum_over_two (lhs (student_constraint wb s)) (λ t, t.1 * sol t.2)
                (1, (s, v1, a1)) (1, (s, v2, a2))) as Htwo.
  simpl rhs in Hle. cbv beta in Htwo. simpl fst in Htwo. simpl snd in Htwo.
  assert (1 * sol (s, v1, a1) + 1 * sol (s, v2, a2) ≤ 1); [|lia].
  etrans; [apply Htwo|exact Hle]; [|by apply Hin|by apply Hin|congruence].
  intros t Ht. simpl in Ht.
  apply list_elem_of_bind in Ht as (v & Ht & Hv).
  apply list_elem_of_bind in Ht as (a & Ht & Ha).
  apply list_elem_of_singleton in Ht as ->. simpl.
  assert ((s, v, a) ∈ triples wb) as Hk by (by apply elem_of_triples).
  pose proof (proj1 (in_bounds_iff wb sol) Hb _ Hk). lia.
Qed.

(** In a feasible solution no supervisor is counted above their workload. *)
Lemma supervisor_load_le_workload sol v :
  feasible wb sol → v ∈ supervisor_names wb →
  Z.of_nat (count wb (values_of sol) v) ≤ workload wb !!! v.
Proof.
  intros Hf Hv. unfold count. rewrite length_filter_selected.
  - rewrite sum_over_bind.
    destruct Hf as [_ (_ & Hsup & _)%constraints_hold_iff].
    etrans; [|apply (Hsup v Hv)]. apply Z.eq_le_incl, sum_over_ext.
    intros s _. rewrite sum_over_bind. apply sum_over_ext. intros a _.
    simpl. lia.
  - intros k Hk. apply (feasible_binary wb sol k Hf).
    apply list_elem_of_bind in Hk as (s & Hk & Hs).
    apply list_elem_of_bind in Hk as (a & Hk & Ha).
    apply list_elem_of_singleton in Hk as ->. by apply elem_of_triples.
Qed.

Lemma student_points_values s a :
  student_points wb s a = 10 ∨ student_points wb s a = 7
  ∨ student_points wb s a = 5 ∨ student_points wb s a = -10.
Proof. unfold student_points. simpl. repeat case_match; auto. Qed.

Lemma supervisor_points_le v a : supervisor_points wb v a ≤ 5.
Proof. unfold supervisor_points. simpl. repeat case_match; lia. Qed.

Lemma student_points_rank s a :
  student_points wb s a = student_utility (rank a (student_preferences wb !!! s)).
Proof. apply student_cascade. Qed.

Lemma supervisor_points_rank v a :
  supervisor_points wb v a = supervisor_utility (rank a (supervisor_preferences wb !!! v)).
Proof. apply supervisor_cascade. Qed.

(** In a sequence without repetition the score follows the position. *)
Lemma student_points_position s a r :
  NoDup (student_preferences wb !!! s) →
  (student_preferences wb !!! s) !! r = Some a →
  student_points wb s a = student_utility (Some r).
Proof. intros Hnd Hr. by rewrite student_points_rank, (rank_NoDup a _ r). Qed.

Lemma supervisor_points_position v a r :
  NoDup (supervisor_preferences wb !!! v) →
  (supervisor_preferences wb !!! v) !! r = Some a →
  supervisor_points wb v a = supervisor_utility (Some r).
Proof. intros Hnd Hr. by rewrite supervisor_points_rank, (rank_NoDup a _ r). Qed.

Lemma student_points_absent s a :
  a ∉ (student_preferences wb !!! s) → student_points wb s a = -10.
Proof. intros Ha%rank_None. by rewrite student_points_rank, Ha. Qed.

Lemma supervisor_points_absent v a :
  a ∉ (supervisor_preferences wb !!! v) → supervisor_points wb v a = -10.
Proof. intros Ha%rank_None. by rewrite supervisor_points_rank, Ha. Qed.

(** A supervisor has at most five areas, so each of them scores. *)
Lemma supervisor_points_present v a :
  a ∈ supervisor_preferences wb !!! v → 1 ≤ supervisor_points wb v a ≤ 5.
Proof.
  intros [r Hr]%rank_is_Some. rewrite supervisor_points_rank, Hr.
  pose proof (rank_lt_length _ _ _ Hr).
  pose proof (supervisor_preferences_length wb v).
  destruct r as [|[|[|[|[|r]]]]]; simpl; lia.
Qed.

(** An optimum selects an edge only for an area among the student's first
    three; the supervisor lists it too unless it is the student's first
    choice and the weight is 0. *)
Lemma optimal_selected_area sol k :
  optimal wb sol → k ∈ triples wb → selected (values_of sol) k →
  k.2 ∈ student_preferences wb !!! k.1.1
  ∧ (k.2 ∈ supervisor_preferences wb !!! k.1.2
     ∨ (at_index (student_preferences wb !!! k.1.1) 0 k.2 ∧ satisfaction wb !!! k = 0)).
Proof.
  intros Hopt Hk Hsel%selected_values_of.
  pose proof (optimal_selected_nonneg wb sol k Hopt Hk Hsel) as Hw.
  rewrite satisfaction_total in Hw |- * by done.
  pose proof (supervisor_points_le k.1.2 k.2).
  split.
  - destruct (decide (k.2 ∈ student_preferences wb !!! k.1.1)) as [|Hno]; [done|].
    apply student_points_absent in Hno. lia.
  - destruct (decide (k.2 ∈ supervisor_preferences wb !!! k.1.2)) as [|Hno]; [by left|right].
    apply supervisor_points_absent in Hno. rewrite Hno in *.
    unfold student_points in *. simpl in *.
    destruct (at_index _ 0 _); [done|]. repeat case_match; lia.
Qed.

End Solved.

(** The student's second and the supervisor's first choice: 7 + 5 = 12, the
    only triple of the workbook with a positive weight. *)
Lemma overlap_scores_12 :
  length (areas Samples.wb_overlap) = 2%nat
  ∧ CStr "areab" ∈ areas Samples.wb_overlap
  ∧ CStr "areac" ∈ areas Samples.wb_overlap
  ∧ satisfaction Samples.wb_overlap !! ("Alice", "Prof. Smith", CStr "areab") = Some 12
  ∧ satisfaction Samples.wb_overlap !! ("Alice", "Prof. Smith", CStr "areac") = Some (-6).
Proof. split_and!; compute_done. Qed.

(** * The properties of the specification *)


(** ** The normaliser *)

(** C7: the normaliser is idempotent on every cell, maps the three spellings
    "Area 1.", "area1" and " AREA, 1" to one canonical string, and returns a
    cell that is not a string unchanged. *)
Theorem normalize_area_idempotent_and_format_insensitive :
  (∀ x, normalize_area (normalize_area x) = normalize_area x)
  ∧ normalize_area (CStr "Area 1.") = CStr "area"
  ∧ normalize_area (CStr "area1") = CStr "area"
  ∧ normalize_area (CStr " AREA, 1") = CStr "area"
  ∧ (∀ z, normalize_area (CNum z) = CNum z)
  ∧ normalize_area CNull = CNull.
Proof.
  split; [|by repeat split].
  intros [|s|z]; simpl; [done| |done].
  by rewrite sub_class_lower, sub_class_idem, lower_idem.
Qed.

(** ** The area set *)

(** C4, as the script has it: the areas are exactly the normalised, non-empty
    area cells of the supervisors' sheet, each once, and the decision
    variables are exactly the triples of a student name, a supervisor name
    and such an area.  The students' proposals add nothing to the set. *)
Theorem areas_are_the_supervisors_areas (wb : workbook) :
  (∀ a, a ∈ areas wb ↔
        ∃ row c, row ∈ supervisors wb ∧ c ∈ area_cells row ∧ c ≠ CNull
                 ∧ a = normalize_area c)
  ∧ NoDup (areas wb)
  ∧ (∀ s v a, is_Some (x wb !! (s, v, a)) ↔
              s ∈ student_names wb ∧ v ∈ supervisor_names wb ∧ a ∈ areas wb).
Proof.
  split_and!.
  - intros a. rewrite elem_of_areas.
    setoid_rewrite elem_of_supervisor_row_prefs. naive_solver.
  - apply NoDup_areas.
  - intros s v a. by rewrite x_dom, elem_of_triples.
Qed.

(** C4, as stated, fails: Alice names criminal law, no supervisor does, and
    the area is not in the area set. *)
Lemma student_only_area_not_in_areas :
  CStr "criminallaw" ∈ student_preferences Samples.wb_tiers !!! "Alice"
  ∧ CStr "criminallaw" ∉ areas Samples.wb_tiers.
Proof. split; compute_done. Qed.

(** ** Scores *)

(** C3: the student-side score is 10, 7 or 5 for an area of rank 0, 1 or 2 in
    the student's sequence and -10 for any other area; the supervisor-side
    score is 5, 4, 3, 2 or 1 for rank 0 to 4 and -10 for any other area; each
    looks at one party only, and the weight stored for a triple of the loop
    is their sum.  The rank of an area is the position of its first
    occurrence ([rank_Some]); in a sequence without repetition it is the
    position ([rank_NoDup]). *)
Theorem scores_follow_ranks (wb : workbook) (student supervisor : string) (area : cell) :
  student_points wb student area
  = student_utility (rank area (student_preferences wb !!! student))
  ∧ supervisor_points wb supervisor area
    = supervisor_utility (rank area (supervisor_preferences wb !!! supervisor))
  ∧ ((student, supervisor, area) ∈ triples wb →
     satisfaction wb !! (student, supervisor, area)
     = Some (student_points wb student area + supervisor_points wb supervisor area)).
Proof.
  split_and!.
  - apply student_points_rank.
  - apply supervisor_points_rank.
  - intros Hk. by rewrite satisfaction_lookup.
Qed.

Lemma scores_follow_ranks_witness :
  ("Alice", "Prof. Smith", CStr "familylaw") ∈ triples Samples.wb_tiers
  ∧ satisfaction Samples.wb_tiers !! ("Alice", "Prof. Smith", CStr "familylaw")
    = Some (student_points Samples.wb_tiers "Alice" (CStr "familylaw")
            + supervisor_points Samples.wb_tiers "Prof. Smith" (CStr "familylaw")).
Proof.
  assert (("Alice", "Prof. Smith", CStr "familylaw") ∈ triples Samples.wb_tiers) as Hk
    by compute_done.
  split; [exact Hk|].
  exact (proj2 (proj2 (scores_follow_ranks Samples.wb_tiers
                         "Alice" "Prof. Smith" (CStr "familylaw"))) Hk).
Defined.




(** C9, as the script has it: the weight of an eligible edge is between -9
    and 15, and at least 6 when the area has one of the first three ranks of
    the student's sequence. *)
Theorem eligible_edge_weight_bounds (wb : workbook) (k : key) :
  k ∈ triples wb → eligible wb k →
  -9 ≤ satisfaction wb !!! k ≤ 15
  ∧ (∀ r, rank k.2 (student_preferences wb !!! k.1.1) = Some r → (r < 3)%nat →
          6 ≤ satisfaction wb !!! k).
Proof.
  intros Hk [Hs Hv]. rewrite satisfaction_total by done.
  apply supervisor_points_present in Hv.
  pose proof (student_points_values wb k.1.1 k.2).
  split; [lia|]. intros r Hr Hlt. rewrite student_points_rank, Hr.
  destruct r as [|[|[|r]]]; simpl; lia.
Qed.

Lemma eligible_edge_weight_bounds_witness :
  -9 ≤ satisfaction Samples.wb_tiers !!! ("Alice", "Prof. Smith", CStr "familylaw") ≤ 15.
Proof.
  refine (proj1 (eligible_edge_weight_bounds Samples.wb_tiers
                   ("Alice", "Prof. Smith", CStr "familylaw") _ _)).
  - compute_done.
  - split; compute_done.
Defined.

(** C9, as stated, fails: family law is Alice's third and Prof. Smith's fifth
    area, an eligible edge of weight 5 + 1 = 6; tort law is Alice's fourth
    and Prof. Smith's first, an eligible edge of weight -10 + 5 = -5. *)
Lemma eligible_edges_below_11 :
  eligible Samples.wb_tiers ("Alice", "Prof. Smith", CStr "familylaw")
  ∧ satisfaction Samples.wb_tiers !!! ("Alice", "Prof. Smith", CStr "familylaw") = 6
  ∧ eligible Samples.wb_tiers ("Alice", "Prof. Smith", CStr "tortlaw")
  ∧ satisfaction Samples.wb_tiers !!! ("Alice", "Prof. Smith", CStr "tortlaw") = -5.
Proof. unfold eligible. split_and!; compute_done. Qed.

(** C10: a student's sequence holds the normalised, non-empty cells of every
    column whose name starts with [proposal_], in column order, so it can be
    longer than three (Alice's has four areas); an area of rank 3 or more
    scores -10 for the student, as an area the student does not list, and so
    never adds a positive student-side score. *)
Theorem late_proposals_score_as_unlisted :
  (∀ wb row,
     NoDup (columns (students wb)) →
     length (stu_cells row) = length (columns (students wb)) →
     student_row_prefs wb row
     = normalize_area <$>
         filter (λ c, notnull c)
           ((filter (λ p, String.prefix "proposal_" p.1)
               (zip (columns (students wb)) (stu_cells row))).*2))
  ∧ (∀ wb s, s ∈ student_names wb →
       ∃ row, row ∈ rows (students wb) ∧ stu_name row = s
              ∧ student_preferences wb !!! s = student_row_prefs wb row)
  ∧ (∃ wb s, s ∈ student_names wb ∧ (3 < length (student_preferences wb !!! s))%nat)
  ∧ (∀ wb s a r,
       rank a (student_preferences wb !!! s) = Some r → (3 ≤ r)%nat →
       student_points wb s a = -10)
  ∧ (∀ wb s a, a ∉ (student_preferences wb !!! s) → student_points wb s a = -10)
  ∧ (∀ wb s a r,
       rank a (student_preferences wb !!! s) = Some r → (3 ≤ r)%nat →
       ¬ 0 < student_points wb s a).
Proof.
  assert (∀ wb s a r,
            rank a (student_preferences wb !!! s) = Some r → (3 ≤ r)%nat →
            student_points wb s a = -10) as Hlate.
  { intros wb s a r Hr Hle. rewrite student_points_rank, Hr.
    by destruct r as [|[|[|r]]]; [lia..|]. }
  split_and!.
  - intros wb row Hnd Hlen. unfold student_row_prefs, student_area_cols.
    by rewrite row_get_columns.
  - intros wb s Hs.
    destruct (student_preferences_lookup wb s Hs) as (row & Hrow & Hname & Hget).
    exists row. by rewrite lookup_total_alt, Hget.
  - exists Samples.wb_tiers, "Alice". split; compute_done.
  - exact Hlate.
  - intros wb s a. apply student_points_absent.
  - intros wb s a r Hr Hle. rewrite (Hlate wb s a r Hr Hle). lia.
Qed.

Lemma late_proposals_score_as_unlisted_witness :
  rank (CStr "tortlaw") (student_preferences Samples.wb_tiers !!! "Alice") = Some 3%nat
  ∧ student_points Samples.wb_tiers "Alice" (CStr "tortlaw") = -10.
Proof.
  assert (rank (CStr "tortlaw") (student_preferences Samples.wb_tiers !!! "Alice")
          = Some 3%nat) as Hr by compute_done.
  split; [exact Hr|].
  refine (proj1 (proj2 (proj2 (proj2 late_proposals_score_as_unlisted)))
            Samples.wb_tiers "Alice" (CStr "tortlaw") 3%nat Hr _).
  lia.
Defined.

(** ** The model *)

(** C2: the constraints of the model are exactly: for every student, the sum
    of the student's variables over the supervisors and areas is at most 1;
    for every supervisor, the sum of the supervisor's variables over the
    students and areas is at most the workload; for every triple of weight
    -20, the variable equals 0.  A solution satisfies them all exactly when
    it satisfies these three families, and the workload is that of a row of
    the supervisor's name. *)
Theorem model_constraints (wb : workbook) :
  (∀ c, c ∈ constraints (prob wb) ↔
     (∃ student, student ∈ student_names wb ∧
        c = {| lhs := supervisor ← supervisor_names wb; area ← areas wb;
                      [(1, (student, supervisor, area))];
               sense := LpConstraintLE; rhs := 1 |})
     ∨ (∃ supervisor, supervisor ∈ supervisor_names wb ∧
        c = {| lhs := student ← student_names wb; area ← areas wb;
                      [(1, (student, supervisor, area))];
               sense := LpConstraintLE; rhs := workload wb !!! supervisor |})
     ∨ (∃ student supervisor area,
        student ∈ student_names wb ∧ supervisor ∈ supervisor_names wb
        ∧ area ∈ areas wb
        ∧ student_points wb student area + supervisor_points wb supervisor area = -20
        ∧ c = {| lhs := [(1, (student, supervisor, area))];
                 sense := LpConstraintEQ; rhs := 0 |}))
  ∧ (∀ sol, Forall (holds sol) (constraints (prob wb)) ↔
       (∀ student, student ∈ student_names wb →
          sum_over (supervisor_names wb) (λ supervisor,
            sum_over (areas wb) (λ area, sol (student, supervisor, area))) ≤ 1)
       ∧ (∀ supervisor, supervisor ∈ supervisor_names wb →
          sum_over (student_names wb) (λ student,
            sum_over (areas wb) (λ area, sol (student, supervisor, area)))
          ≤ workload wb !!! supervisor)
       ∧ (∀ student supervisor area,
          (student, supervisor, area) ∈ triples wb →
          student_points wb student area + supervisor_points wb supervisor area = -20 →
          sol (student, supervisor, area) = 0))
  ∧ (∀ supervisor, supervisor ∈ supervisor_names wb →
       ∃ row, row ∈ supervisors wb ∧ sup_name row = supervisor
              ∧ workload wb !!! supervisor = sup_workload row).
Proof.
  split_and!.
  - intros c. rewrite elem_of_constraints. do 2 (apply or_iff_compat_l). split.
    + intros ([[s v] a] & Hk & Hw & ->). rewrite satisfaction_total in Hw by done.
      apply elem_of_triples in Hk as (? & ? & ?). eauto 10.
    + intros (s & v & a & Hs & Hv & Ha & Hw & ->).
      assert ((s, v, a) ∈ triples wb) as Hk by (by apply elem_of_triples).
      exists (s, v, a). by rewrite satisfaction_total.
  - intros sol. rewrite constraints_hold_iff. do 2 (apply and_iff_compat_l). split.
    + intros Hp s v a Hk Hw. apply Hp; [done|]. by rewrite satisfaction_total.
    + intros Hp [[s v] a] Hk Hw. rewrite satisfaction_total in Hw by done. auto.
  - intros v Hv. destruct (workload_lookup wb v Hv) as (row & Hrow & Hname & Hget).
    exists row. by rewrite lookup_total_alt, Hget.
Qed.

Lemma model_constraints_witness :
  "Prof. Lee" ∈ supervisor_names Samples.wb_tiers
  ∧ ∃ row, row ∈ supervisors Samples.wb_tiers ∧ sup_name row = "Prof. Lee"
           ∧ workload Samples.wb_tiers !!! "Prof. Lee" = sup_workload row.
Proof.
  assert ("Prof. Lee" ∈ supervisor_names Samples.wb_tiers) as Hv by compute_done.
  split; [exact Hv|].
  exact (proj2 (proj2 (model_constraints Samples.wb_tiers)) "Prof. Lee" Hv).
Defined.

(** ** After the solver *)

(** C6, as the script has it: for a 0/1 solution read back from the solver,
    the total recomputed over the selected triples is the value of the
    objective; the script compares nothing and raises nothing, it completes
    with its report whatever the values are. *)
Theorem recomputed_total_equals_objective_value (wb : workbook) :
  (∀ vals, ∃ r, post_solve wb vals = Completed r)
  ∧ (∀ sol r,
       (∀ k, k ∈ triples wb → sol k = 0 ∨ sol k = 1) →
       post_solve wb (values_of sol) = Completed r →
       total_satisfaction r = value sol (objective (prob wb))).
Proof.
  split; [by eauto|].
  intros sol r Hbin [= <-]. simpl.
  by rewrite (total_filter_selected sol (λ k, satisfaction wb !!! k)).
Qed.

Lemma recomputed_total_equals_objective_value_witness :
  ∃ r, post_solve Samples.wb_shared (values_of Samples.sol_shared) = Completed r
       ∧ total_satisfaction r
         = value Samples.sol_shared (objective (prob Samples.wb_shared)).
Proof.
  eexists. split; [reflexivity|].
  refine (proj2 (recomputed_total_equals_objective_value Samples.wb_shared)
            Samples.sol_shared _ _ eq_refl).
  intros k _. unfold Samples.sol_shared. repeat case_decide; auto.
Defined.

(** C6, as stated, fails: with values that give Prof. Lee, whose workload is
    0, one student, the script completes and reports the load 1 next to the
    limit 0. *)
Lemma over_capacity_is_reported_not_fatal :
  workload Samples.wb_tiers !!! "Prof. Lee"
    < Z.of_nat (count Samples.wb_tiers Samples.vals_over "Prof. Lee")
  ∧ (∃ r, post_solve Samples.wb_tiers Samples.vals_over = Completed r
          ∧ ("Prof. Lee", 1%nat, 0) ∈ loads r)
  ∧ (∀ error, post_solve Samples.wb_tiers Samples.vals_over ≠ Raised error).
Proof.
  split_and!.
  - compute_done.
  - eexists. split; [reflexivity|]. compute_done.
  - done.
Qed.

(** C8: a student whose sequence shares no area with the sequence of any
    supervisor row is in the unmatched list of every optimal solution, and
    in none of its selected triples.  Every triple of such a student has a
    negative weight, and an optimum selects no such triple.  With distinct
    supervisor names the rows' sequences are those of
    [supervisor_preferences] ([supervisor_preferences_row]). *)
Theorem student_without_shared_area_is_unmatched
    (wb : workbook) (sol : key → Z) (s : string) (r : report) :
  optimal wb sol →
  s ∈ student_names wb →
  (∀ row a, row ∈ supervisors wb → a ∈ supervisor_row_prefs row →
            a ∉ (student_preferences wb !!! s)) →
  post_solve wb (values_of sol) = Completed r →
  s ∈ unmatched r ∧ (∀ k, k ∈ assignments r → k.1.1 ≠ s).
Proof.
  intros Hopt Hs Hapart [= <-]. simpl.
  assert (∀ v a, (s, v, a) ∈ triples wb → ¬ selected (values_of sol) (s, v, a)) as Hno.
  { intros v a Hk Hsel%selected_values_of.
    pose proof (optimal_selected_nonneg wb sol _ Hopt Hk Hsel) as Hw.
    rewrite satisfaction_total in Hw by done. simpl in Hw.
    apply elem_of_triples in Hk as (_ & Hv & (row & Hrow & Ha)%elem_of_areas).
    rewrite (student_points_absent wb s a) in Hw by eauto.
    pose proof (supervisor_points_le wb v a). lia. }
  split.
  - apply list_elem_of_filter. split; [|done].
    unfold assigned. intros Hex%Is_true_true%existsb_exists.
    destruct Hex as (k & Hk%list_elem_of_In & Hsel%Is_true_true).
    apply list_elem_of_bind in Hk as (v & Hk & Hv).
    apply list_elem_of_bind in Hk as (a & Hk & Ha).
    apply list_elem_of_singleton in Hk as ->.
    apply (Hno v a); [by apply elem_of_triples|done].
  - intros [[s' v] a] [Hsel Hk]%list_elem_of_filter Heq. simpl in Heq. subst s'.
    by apply (Hno v a).
Qed.

(** In the workbook where Bob and Prof. Smith have nothing in common, the
    empty assignment is optimal. *)
Lemma sol_none_optimal : optimal Samples.wb_apart Samples.sol_none.
Proof.
  split; [split|].
  - apply in_bounds_iff. intros k _. unfold Samples.sol_none. lia.
  - evaluate (constraints (prob Samples.wb_apart)).
    repeat constructor; unfold holds, value, Samples.sol_none; simpl; lia.
  - intros sol' [Hb _].
    pose proof (proj1 (in_bounds_iff _ _) Hb ("Bob", "Prof. Smith", CStr "tortlaw")) as Hk.
    evaluate (objective (prob Samples.wb_apart)).
    unfold value, Samples.sol_none. simpl.
    assert (("Bob", "Prof. Smith", CStr "tortlaw") ∈ triples Samples.wb_apart)
      as Hin by compute_done.
    specialize (Hk Hin). lia.
Qed.

Lemma student_without_shared_area_is_unmatched_witness :
  ∃ r, post_solve Samples.wb_apart (values_of Samples.sol_none) = Completed r
       ∧ "Bob" ∈ unmatched r.
Proof.
  eexists. split; [reflexivity|].
  refine (proj1 (student_without_shared_area_is_unmatched
                   Samples.wb_apart Samples.sol_none "Bob" _
                   sol_none_optimal _ _ eq_refl)).
  - compute_done.
  - intros row a Hrow Ha.
    apply list_elem_of_singleton in Hrow as ->.
    apply list_elem_of_singleton in Ha as ->. compute_done.
Defined.

(** C1 on the workbook of two students who both want tort law, Prof. Smith
    who offers it and Prof. Lee who does not, one place each: giving Alice to
    Prof. Smith and Bob to Prof. Lee, both for tort law, is a feasible 0/1
    optimum of the model (value 15 + 0), and its selected triple for Bob has
    an area that Prof. Lee's sequence does not hold.  The triple has weight
    0, not -20, so the constraint of step 9 leaves it free.  The first two
    invariants hold in every feasible solution ([selected_student_unique],
    [supervisor_load_le_workload]). *)
Theorem optimum_selects_area_the_supervisor_does_not_list :
  optimal Samples.wb_shared Samples.sol_shared
  ∧ (∃ r, post_solve Samples.wb_shared (values_of Samples.sol_shared) = Completed r
          ∧ assignments r = [Samples.alice_smith; Samples.bob_lee])
  ∧ satisfaction Samples.wb_shared !!! Samples.bob_lee = 0
  ∧ CStr "tortlaw" ∈ student_preferences Samples.wb_shared !!! "Bob"
  ∧ CStr "tortlaw" ∉ supervisor_preferences Samples.wb_shared !!! "Prof. Lee".
Proof.
  split_and!; [|eexists; split; [reflexivity|]|..]; try compute_done.
  split; [split|].
  - apply in_bounds_iff. intros k _. unfold Samples.sol_shared.
    repeat case_decide; lia.
  - evaluate (constraints (prob Samples.wb_shared)).
    repeat constructor; vm_compute; done.
  - intros sol' [Hb Hc].
    assert (Forall (λ k, 0 ≤ sol' k ≤ 1) (triples Samples.wb_shared)) as Hall.
    { apply Forall_forall. apply in_bounds_iff, Hb. }
    replace (value Samples.sol_shared (objective (prob Samples.wb_shared)))
      with 15 by (by vm_compute).
    evaluate (triples Samples.wb_shared).
    evaluate (constraints (prob Samples.wb_shared)).
    evaluate (objective (prob Samples.wb_shared)).
    repeat (apply Forall_cons in Hall as [? Hall]).
    repeat (apply Forall_cons in Hc as [? Hc]).
    unfold holds, value in *. simpl in *. lia.
Qed.

(** * Further properties of the script *)

(** ** [remove_numbers] and the normaliser *)

Section Stripping.

Implicit Types (s : string) (c : ascii) (p : ascii → bool).

Lemma all_chars_lstrip p s : Strip.all_chars p s → Strip.all_chars p (Strip.lstrip s).
Proof.
  induction s as [|c r IH]; simpl; [done|].
  destruct (Text.is_space c); [|done]. intros [_ ?]%andb_True. auto.
Qed.

Lemma all_chars_rstrip p s : Strip.all_chars p s → Strip.all_chars p (Strip.rstrip s).
Proof.
  induction s as [|c r IH]; simpl; [done|]. intros [Hc Hr]%andb_True.
  specialize (IH Hr). destruct (Strip.rstrip r) as [|c' r'].
  - destruct (Text.is_space c); simpl; [done|]. by rewrite andb_True.
  - simpl in *. rewrite andb_True. done.
Qed.

Lemma all_chars_sub_digits s :
  Strip.all_chars (λ c, negb (Text.is_digit c)) (Strip.sub_digits s).
Proof.
  induction s as [|c r IH]; simpl; [done|].
  destruct (Text.is_digit c) eqn:E; simpl; [done|]. by rewrite E.
Qed.

Lemma sub_digits_fixed s :
  Strip.all_chars (λ c, negb (Text.is_digit c)) s → Strip.sub_digits s = s.
Proof.
  induction s as [|c r IH]; simpl; [done|]. intros [Hc Hr]%andb_True.
  apply negb_True, Is_true_false in Hc. rewrite Hc. by rewrite IH.
Qed.

Lemma lstrip_first s :
  match Strip.first_char (Strip.lstrip s) with
  | Some c => Text.is_space c = false
  | None => True
  end.
Proof. induction s as [|c r IH]; simpl; [done|]. by destruct (Text.is_space c) eqn:E. Qed.

Lemma lstrip_fixed s :
  match Strip.first_char s with Some c => Text.is_space c = false | None => True end →
  Strip.lstrip s = s.
Proof. destruct s as [|c r]; simpl; [done|]. by intros ->. Qed.

Lemma rstrip_first s :
  match Strip.first_char s with Some c => Text.is_space c = false | None => True end →
  match Strip.first_char (Strip.rstrip s) with
  | Some c => Text.is_space c = false
  | None => True
  end.
Proof.
  destruct s as [|c r]; simpl; [done|]. intros Hc.
  destruct (Strip.rstrip r); simpl; [|done]. by rewrite Hc.
Qed.

Lemma rstrip_last s :
  match Strip.last_char (Strip.rstrip s) with
  | Some c => Text.is_space c = false
  | None => True
  end.
Proof.
  induction s as [|c r IH]; simpl; [done|].
  destruct (Strip.rstrip r) as [|c' r'] eqn:E.
  - by destruct (Text.is_space c) eqn:Ec.
  - exact IH.
Qed.

Lemma rstrip_idem s : Strip.rstrip (Strip.rstrip s) = Strip.rstrip s.
Proof.
  induction s as [|c r IH]; simpl; [done|].
  destruct (Strip.rstrip r) as [|c' r'] eqn:E.
  - destruct (Text.is_space c) eqn:Ec; simpl; [done|]. by rewrite Ec.
  - change (Strip.rstrip (String c (String c' r'))) with
      (match Strip.rstrip (String c' r') with
       | EmptyString => if Text.is_space c then EmptyString else String c EmptyString
       | String c'' r'' => String c (String c'' r'')
       end).
    by rewrite IH.
Qed.

Lemma strip_idem s : Strip.strip (Strip.strip s) = Strip.strip s.
Proof.
  unfold Strip.strip.
  rewrite (lstrip_fixed (Strip.rstrip _)); [apply rstrip_idem|].
  apply rstrip_first, lstrip_first.
Qed.

Lemma is_digit_in_class c : Text.is_digit c = true → Text.in_class c = true.
Proof. unfold Text.in_class. intros ->. by rewrite orb_true_r. Qed.

Lemma is_space_in_class c : Text.is_space c = true → Text.in_class c = true.
Proof. unfold Text.in_class. by intros ->. Qed.

Lemma sub_class_sub_digits s : Text.sub_class (Strip.sub_digits s) = Text.sub_class s.
Proof.
  induction s as [|c r IH]; simpl; [done|].
  destruct (Text.is_digit c) eqn:E; simpl.
  - by rewrite (is_digit_in_class c E).
  - by rewrite IH.
Qed.

Lemma sub_class_lstrip s : Text.sub_class (Strip.lstrip s) = Text.sub_class s.
Proof.
  induction s as [|c r IH]; simpl; [done|].
  destruct (Text.is_space c) eqn:E; simpl; [|done].
  by rewrite (is_space_in_class c E).
Qed.

Lemma sub_class_rstrip s : Text.sub_class (Strip.rstrip s) = Text.sub_class s.
Proof.
  induction s as [|c r IH]; simpl; [done|]. rewrite <-IH.
  destruct (Strip.rstrip r) as [|c' r'] eqn:E; [|done].
  destruct (Text.is_space c) eqn:Ec; simpl; [|done].
  by rewrite (is_space_in_class c Ec).
Qed.



Lemma sub_class_all s : Strip.all_chars Text.in_class s → Text.sub_class s = EmptyString.
Proof.
  induction s as [|c r IH]; simpl; [done|]. intros [Hc Hr]%andb_True.
  apply Is_true_true in Hc. rewrite Hc. auto.
Qed.





End Stripping.

(** X1: [remove_numbers] is idempotent; what it returns for a string holds
    no decimal digit and neither starts nor ends with white space; a cell
    that is not a string is returned unchanged. *)
Theorem remove_numbers_idempotent_and_stripped :
  (∀ x, remove_numbers (remove_numbers x) = remove_numbers x)
  ∧ (∀ s, ∃ t, remove_numbers (CStr s) = CStr t
          ∧ Strip.all_chars (λ c, negb (Text.is_digit c)) t
          ∧ (∀ c, Strip.first_char t = Some c → Text.is_space c = false)
          ∧ (∀ c, Strip.last_char t = Some c → Text.is_space c = false))
  ∧ (∀ z, remove_numbers (CNum z) = CNum z)
  ∧ remove_numbers CNull = CNull.
Proof.
  split_and!; [| |done..].
  - intros [|s|z]; simpl; [done| |done]. f_equal.
    rewrite (sub_digits_fixed (Strip.strip _)); [apply strip_idem|].
    apply all_chars_rstrip, all_chars_lstrip, all_chars_sub_digits.
  - intros s. eexists. split; [reflexivity|]. split_and!.
    + apply all_chars_rstrip, all_chars_lstrip, all_chars_sub_digits.
    + intros c Hc. unfold Strip.strip in Hc.
      pose proof (rstrip_first _ (lstrip_first (Strip.sub_digits s))) as H.
      by rewrite Hc in H.
    + intros c Hc. unfold Strip.strip in Hc.
      pose proof (rstrip_last (Strip.lstrip (Strip.sub_digits s))) as H.
      by rewrite Hc in H.
Qed.

Lemma remove_numbers_idempotent_and_stripped_witness :
  remove_numbers (CStr " 12 Tort 3 Law 4 ") = CStr "Tort  Law"
  ∧ Text.is_space "T" = false.
Proof.
  split; [reflexivity|].
  destruct (proj1 (proj2 remove_numbers_idempotent_and_stripped) " 12 Tort 3 Law 4 ")
    as (t & Ht & _ & Hfirst & _).
  injection Ht as <-. apply Hfirst. reflexivity.
Defined.

(** X2: the normaliser absorbs [remove_numbers]: cleaning a cell with
    [remove_numbers] first does not change its normal form. *)
Theorem normalize_area_absorbs_remove_numbers (x : cell) :
  normalize_area (remove_numbers x) = normalize_area x.
Proof.
  destruct x as [|s|z]; simpl; [done| |done]. unfold Strip.strip.
  by rewrite sub_class_rstrip, sub_class_lstrip, sub_class_sub_digits.
Qed.




(** ** The prepared data, further *)

Section PreparedMore.

Context (wb : workbook).

Lemma normalize_area_idem c : normalize_area (normalize_area c) = normalize_area c.
Proof.
  destruct c as [|s|z]; simpl; [done| |done].
  by rewrite sub_class_lower, sub_class_idem, lower_idem.
Qed.

Lemma normalize_area_notnull c : c ≠ CNull → normalize_area c ≠ CNull.
Proof. by destruct c. Qed.

(** The item read under a key is the last one written under it. *)
Lemma dict_lookup_middle `{Countable K} {V} (l1 l2 : list (K * V)) k v :
  k ∉ l2.*1 → dict (l1 ++ (k, v) :: l2) !! k = Some v.
Proof.
  induction l2 as [|[k' v'] l2 IH] using rev_ind; intros Hk.
  - apply dict_last_wins.
  - rewrite fmap_app in Hk.
    replace (l1 ++ (k, v) :: l2 ++ [(k', v')])
      with ((l1 ++ (k, v) :: l2) ++ [(k', v')]) by (by rewrite <-app_assoc).
    rewrite dict_snoc, lookup_insert_ne; [|set_solver]. apply IH. set_solver.
Qed.

Lemma filter_lookup_count {A} (P : A → Prop) `{∀ a, Decision (P a)} (l : list A) j a :
  l !! j = Some a → P a →
  filter P l !! length (filter P (take j l)) = Some a.
Proof.
  intros Hj Ha.
  assert (filter P l = filter P (take j l) ++ a :: filter P (drop (S j) l)) as ->.
  { transitivity (filter P (take j l ++ a :: drop (S j) l));
      [by rewrite take_drop_middle|].
    by rewrite filter_app, filter_cons, decide_True. }
  rewrite lookup_app_r by done. by rewrite Nat.sub_diag.
Qed.

Lemma length_bind_const {A B} (f : A → list B) (l : list A) n :
  (∀ a, length (f a) = n) → length (l ≫= f) = (length l * n)%nat.
Proof.
  intros Hf. induction l as [|a l IH]; [done|].
  change ((a :: l) ≫= f) with (f a ++ (l ≫= f)).
  rewrite length_app, IH, Hf. simpl. lia.
Qed.

Lemma length_triples :
  length (triples wb)
  = (length (student_names wb) * (length (supervisor_names wb) * length (areas wb)))%nat.
Proof.
  unfold triples. apply length_bind_const. intros s.
  apply length_bind_const. intros v.
  rewrite (length_bind_const _ _ 1%nat); [lia|done].
Qed.

Lemma NoDup_triples :
  NoDup (student_names wb) → NoDup (supervisor_names wb) → NoDup (triples wb).
Proof.
  intros Hs Hv. unfold triples.
  apply NoDup_bind; [| |done].
  - intros s1 s2 k _ _ Hk1 Hk2.
    apply list_elem_of_bind in Hk1 as (? & Hk1 & _), Hk2 as (? & Hk2 & _).
    apply list_elem_of_bind in Hk1 as (? & Hk1 & _), Hk2 as (? & Hk2 & _).
    apply list_elem_of_singleton in Hk1, Hk2. congruence.
  - intros s _. apply NoDup_bind; [| |done].
    + intros v1 v2 k _ _ Hk1 Hk2.
      apply list_elem_of_bind in Hk1 as (? & Hk1 & _), Hk2 as (? & Hk2 & _).
      apply list_elem_of_singleton in Hk1, Hk2. congruence.
    + intros v _. apply NoDup_bind; [| |apply NoDup_areas].
      * intros a1 a2 k _ _ Hk1 Hk2.
        apply list_elem_of_singleton in Hk1, Hk2. congruence.
      * intros a _. apply NoDup_singleton.
Qed.

Lemma size_list_to_set_le `{Countable K} (l : list K) :
  (size (list_to_set (C := gset K) l) ≤ length l)%nat.
Proof.
  induction l as [|a l IH]; [by rewrite list_to_set_nil, size_empty|].
  rewrite list_to_set_cons, size_union_alt, size_singleton. cbn [length].
  assert (size (list_to_set (C := gset K) l ∖ {[a]}) ≤ size (list_to_set (C := gset K) l))%nat
    by (apply subseteq_size; set_solver).
  lia.
Qed.

Lemma dom_x : dom (x wb) = list_to_set (triples wb).
Proof.
  apply set_eq. intros k.
  by rewrite elem_of_dom, x_dom, elem_of_list_to_set.
Qed.

End PreparedMore.

(** X5: a label made only of digits, white space, dots and commas has the
    empty string as its normal form; the cell is not empty for the script,
    so the empty string becomes an area of the model. *)
Theorem stripped_label_is_the_empty_area (wb : workbook) (row : supervisor_row) (s : string) :
  Strip.all_chars Text.in_class s →
  normalize_area (CStr s) = CStr ""
  ∧ (row ∈ supervisors wb → CStr s ∈ area_cells row → CStr "" ∈ areas wb).
Proof.
  intros Hs.
  assert (normalize_area (CStr s) = CStr "") as Hn.
  { simpl. by rewrite sub_class_all. }
  split; [done|]. intros Hrow Hc. apply elem_of_areas. exists row. split; [done|].
  apply elem_of_supervisor_row_prefs. exists (CStr s). by rewrite Hn.
Qed.

Lemma stripped_label_is_the_empty_area_witness :
  normalize_area (CStr "1. 2, 3") = CStr "".
Proof.
  refine (proj1 (stripped_label_is_the_empty_area Samples.wb_apart
                   (Samples.supervisor "Prof. Smith" 1 ["Tort Law"]) "1. 2, 3" _)).
  reflexivity.
Defined.

(** X6: every area of the area set and every entry of a stored preference
    sequence is a non-empty cell in normal form: normalising it again gives
    the same cell. *)
Theorem areas_and_preferences_are_normal (wb : workbook) :
  (∀ a, a ∈ areas wb → a ≠ CNull ∧ normalize_area a = a)
  ∧ (∀ v a, a ∈ supervisor_preferences wb !!! v → a ≠ CNull ∧ normalize_area a = a)
  ∧ (∀ s a, a ∈ student_preferences wb !!! s → a ≠ CNull ∧ normalize_area a = a).
Proof.
  assert (∀ (l : list cell) a,
            a ∈ normalize_area <$> filter (λ c, notnull c) l →
            a ≠ CNull ∧ normalize_area a = a) as Hnormal.
  { intros l a (c & -> & [Hc%notnull_spec _]%list_elem_of_filter)%list_elem_of_fmap.
    split; [by apply normalize_area_notnull|apply normalize_area_idem]. }
  split_and!.
  - intros a (row & _ & Ha)%elem_of_areas. by eapply Hnormal.
  - intros v a. rewrite lookup_total_alt.
    destruct (supervisor_preferences wb !! v) as [prefs|] eqn:E; simpl;
      [|by intros ?%elem_of_nil].
    apply dict_rows_lookup_inv in E as (row & _ & _ & ->). apply Hnormal.
  - intros s a. rewrite lookup_total_alt.
    destruct (student_preferences wb !! s) as [prefs|] eqn:E; simpl;
      [|by intros ?%elem_of_nil].
    apply dict_rows_lookup_inv in E as (row & _ & _ & ->). apply Hnormal.
Qed.

Lemma areas_and_preferences_are_normal_witness :
  CStr "tortlaw" ∈ areas Samples.wb_apart
  ∧ normalize_area (CStr "tortlaw") = CStr "tortlaw".
Proof.
  assert (CStr "tortlaw" ∈ areas Samples.wb_apart) as Ha by compute_done.
  split; [exact Ha|].
  exact (proj2 (proj1 (areas_and_preferences_are_normal Samples.wb_apart) _ Ha)).
Defined.

(** X7: every area of a stored supervisor sequence is in the area set, so it
    has decision variables; with distinct supervisor names the area set is
    exactly the union of the stored supervisor sequences. *)
Theorem supervisor_preferences_within_areas (wb : workbook) :
  (∀ v a, a ∈ supervisor_preferences wb !!! v → a ∈ areas wb)
  ∧ (NoDup (supervisor_names wb) →
     ∀ a, a ∈ areas wb ↔
          ∃ v, v ∈ supervisor_names wb ∧ a ∈ supervisor_preferences wb !!! v).
Proof.
  assert (∀ v a, a ∈ supervisor_preferences wb !!! v → a ∈ areas wb) as Hsub.
  { intros v a. rewrite lookup_total_alt.
    destruct (supervisor_preferences wb !! v) as [prefs|] eqn:E; simpl;
      [|by intros ?%elem_of_nil].
    apply dict_rows_lookup_inv in E as (row & Hrow & _ & ->).
    intros Ha. apply elem_of_areas. eauto. }
  split; [done|]. intros Hnd a. split.
  - intros (row & Hrow & Ha)%elem_of_areas. exists (sup_name row). split.
    + by apply list_elem_of_fmap_2.
    + by rewrite supervisor_preferences_row.
  - intros (v & _ & Ha). by eapply Hsub.
Qed.

Lemma supervisor_preferences_within_areas_witness :
  CStr "medialaw" ∈ areas Samples.wb_tiers.
Proof.
  apply (proj2 (supervisor_preferences_within_areas Samples.wb_tiers)); [compute_done|].
  exists "Prof. Lee". split; compute_done.
Defined.

(** X8: empty cells are skipped, not counted: with distinct supervisor
    names, the area of a non-empty cell stands in the supervisor's stored
    sequence at the position given by the number of non-empty cells to its
    left, whatever its column. *)
Theorem empty_cells_shift_ranks (wb : workbook) (row : supervisor_row) (j : nat) (c : cell) :
  NoDup (supervisor_names wb) → row ∈ supervisors wb →
  area_cells row !! j = Some c → c ≠ CNull →
  (supervisor_preferences wb !!! sup_name row)
    !! length (filter (λ c, notnull c) (take j (area_cells row)))
  = Some (normalize_area c).
Proof.
  intros Hnd Hrow Hj Hc. rewrite supervisor_preferences_row by done.
  unfold supervisor_row_prefs. rewrite list_lookup_fmap.
  rewrite (filter_lookup_count _ _ j c); [done..|]. by apply notnull_spec.
Qed.

Lemma empty_cells_shift_ranks_witness :
  (supervisor_preferences MoreSamples.wb_gap !!! "Prof. Smith") !! 0%nat = Some (CStr "tortlaw").
Proof.
  apply (empty_cells_shift_ranks MoreSamples.wb_gap
           (MoreSamples.supervisor_cells "Prof. Smith" 1 CNull (CStr "Tort Law")) 1%nat
           (CStr "Tort Law")).
  - compute_done.
  - by apply list_elem_of_singleton.
  - reflexivity.
  - done.
Defined.

(** X9: the loop over students, supervisors and areas runs
    |students| x |supervisors| x |areas| times; the dictionary [x] never
    holds more variables than that, and exactly that many when the student
    names and the supervisor names are distinct. *)
Theorem variable_count (wb : workbook) :
  length (triples wb)
  = (length (student_names wb) * (length (supervisor_names wb) * length (areas wb)))%nat
  ∧ (size (x wb) ≤ length (triples wb))%nat
  ∧ (NoDup (student_names wb) → NoDup (supervisor_names wb) →
     size (x wb) = length (triples wb)).
Proof.
  split_and!.
  - apply length_triples.
  - rewrite <-size_dom, dom_x. apply size_list_to_set_le.
  - intros Hs Hv. rewrite <-size_dom, dom_x.
    apply size_list_to_set. by apply NoDup_triples.
Qed.

Lemma variable_count_witness :
  size (x Samples.wb_tiers) = 24%nat.
Proof.
  rewrite (proj2 (proj2 (variable_count Samples.wb_tiers))) by compute_done.
  reflexivity.
Defined.

(** X10: when a name occurs in several rows, the dictionaries keep the last
    of them: the workload, the supervisor's sequence and the student's
    sequence read under a name are those of the last row of that name. *)
Theorem last_row_of_a_name_wins (wb : workbook) :
  (∀ l1 row l2, supervisors wb = l1 ++ row :: l2 → sup_name row ∉ sup_name <$> l2 →
     workload wb !!! sup_name row = sup_workload row
     ∧ supervisor_preferences wb !!! sup_name row = supervisor_row_prefs row)
  ∧ (∀ l1 row l2, rows (students wb) = l1 ++ row :: l2 → stu_name row ∉ stu_name <$> l2 →
     student_preferences wb !!! stu_name row = student_row_prefs wb row).
Proof.
  split.
  - intros l1 row l2 Hrows Hlast. split.
    + rewrite lookup_total_alt. unfold workload. rewrite zip_fmap_rows, Hrows.
      rewrite fmap_app, fmap_cons, dict_lookup_middle; [done|].
      by rewrite <-list_fmap_compose.
    + rewrite lookup_total_alt. unfold supervisor_preferences. rewrite Hrows.
      rewrite fmap_app, fmap_cons, dict_lookup_middle; [done|].
      by rewrite <-list_fmap_compose.
  - intros l1 row l2 Hrows Hlast.
    rewrite lookup_total_alt. unfold student_preferences. rewrite Hrows.
    rewrite fmap_app, fmap_cons, dict_lookup_middle; [done|].
    by rewrite <-list_fmap_compose.
Qed.

Lemma last_row_of_a_name_wins_witness :
  workload MoreSamples.wb_twice !!! "Prof. Smith" = 3.
Proof.
  apply (proj1 (proj1 (last_row_of_a_name_wins MoreSamples.wb_twice)
                  [Samples.supervisor "Prof. Smith" 1 ["Tort Law"]]
                  (Samples.supervisor "Prof. Smith" 3 ["Contract Law"]) []
                  eq_refl ltac:(compute_done))).
Defined.

(** ** The model and its solutions, further *)

Section ModelMore.

Context (wb : workbook).
Implicit Types (sol : key → Z) (k : key).

Lemma sum_over_zero {A} (l : list A) : sum_over l (λ _, 0) = 0.
Proof. induction l as [|a l IH]; simpl; [done|]. by rewrite IH. Qed.

Lemma sum_over_add {A} (l : list A) (f g : A → Z) :
  sum_over l (λ a, f a + g a) = sum_over l f + sum_over l g.
Proof. induction l as [|a l IH]; simpl; [done|]. rewrite IH. lia. Qed.

Lemma sum_over_swap {A B} (l1 : list A) (l2 : list B) (f : A → B → Z) :
  sum_over l1 (λ a, sum_over l2 (λ b, f a b))
  = sum_over l2 (λ b, sum_over l1 (λ a, f a b)).
Proof.
  induction l1 as [|a l1 IH]; simpl.
  - by rewrite sum_over_zero.
  - by rewrite IH, sum_over_add.
Qed.

Lemma sol_zero_feasible :
  (∀ v, v ∈ supervisor_names wb → 0 ≤ workload wb !!! v) → feasible wb sol_zero.
Proof.
  intros Hw. split.
  - apply in_bounds_iff. intros k _. unfold sol_zero. lia.
  - apply constraints_hold_iff. unfold sol_zero. split_and!.
    + intros s _. rewrite (sum_over_ext _ _ (λ _, 0)); [by rewrite sum_over_zero|].
      intros v _. apply sum_over_zero.
    + intros v Hv. rewrite (sum_over_ext _ _ (λ _, 0)); [rewrite sum_over_zero; auto|].
      intros s _. apply sum_over_zero.
    + done.
Qed.

(** The sum of a student's variables, and of a supervisor's. *)
Lemma student_sum_bounds sol s :
  feasible wb sol → s ∈ student_names wb →
  0 ≤ sum_over (v ← supervisor_names wb; a ← areas wb; [(s, v, a)]) sol ≤ 1.
Proof.
  intros Hf Hs. split.
  - apply sum_over_nonneg. intros k Hk.
    apply list_elem_of_bind in Hk as (v & Hk & Hv).
    apply list_elem_of_bind in Hk as (a & Hk & Ha).
    apply list_elem_of_singleton in Hk as ->.
    destruct (feasible_binary wb sol (s, v, a) Hf); [by apply elem_of_triples|lia..].
  - destruct Hf as [_ (Hstu & _)%constraints_hold_iff].
    etrans; [|apply (Hstu s Hs)]. rewrite sum_over_bind.
    apply Z.eq_le_incl, sum_over_ext. intros v _. rewrite sum_over_bind.
    apply sum_over_ext. intros a _. simpl. lia.
Qed.

Lemma supervisor_sum_nested sol v :
  sum_over (s ← student_names wb; a ← areas wb; [(s, v, a)]) sol
  = sum_over (student_names wb) (λ s, sum_over (areas wb) (λ a, sol (s, v, a))).
Proof.
  rewrite sum_over_bind. apply sum_over_ext. intros s _. rewrite sum_over_bind.
  apply sum_over_ext. intros a _. simpl. lia.
Qed.

Lemma triples_sum_nested sol :
  sum_over (triples wb) sol
  = sum_over (student_names wb) (λ s,
      sum_over (supervisor_names wb) (λ v, sum_over (areas wb) (λ a, sol (s, v, a)))).
Proof.
  unfold triples. rewrite sum_over_bind. apply sum_over_ext. intros s _.
  rewrite sum_over_bind. apply sum_over_ext. intros v _. rewrite sum_over_bind.
  apply sum_over_ext. intros a _. simpl. lia.
Qed.

Lemma assigned_spec vals s :
  assigned wb vals s ↔
  ∃ v a, v ∈ supervisor_names wb ∧ a ∈ areas wb ∧ selected vals (s, v, a).
Proof.
  unfold assigned. rewrite Is_true_true, existsb_exists. split.
  - intros (k & Hk%list_elem_of_In & Hsel%Is_true_true).
    apply list_elem_of_bind in Hk as (v & Hk & Hv).
    apply list_elem_of_bind in Hk as (a & Hk & Ha).
    apply list_elem_of_singleton in Hk as ->. eauto.
  - intros (v & a & Hv & Ha & Hsel). exists (s, v, a). split.
    + apply list_elem_of_In, list_elem_of_bind. exists v. split; [|done].
      apply list_elem_of_bind. exists a. split; [|done]. by apply list_elem_of_singleton.
    + by apply Is_true_true.
Qed.

(** In a feasible solution the sum of a student's variables is 1 if the
    student is assigned and 0 if not. *)
Lemma student_sum_assigned sol s :
  feasible wb sol → s ∈ student_names wb →
  sum_over (v ← supervisor_names wb; a ← areas wb; [(s, v, a)]) sol
  = if assigned wb (values_of sol) s then 1 else 0.
Proof.
  intros Hf Hs. pose proof (student_sum_bounds sol s Hf Hs) as Hb.
  destruct (assigned wb (values_of sol) s) eqn:E.
  - apply Is_true_true, assigned_spec in E as (v & a & Hv & Ha & Hsel).
    apply selected_values_of in Hsel.
    assert (sol (s, v, a)
            ≤ sum_over (v ← supervisor_names wb; a ← areas wb; [(s, v, a)]) sol); [|lia].
    apply (sum_over_elem _ sol (s, v, a)).
    + intros k Hk.
      apply list_elem_of_bind in Hk as (v' & Hk & Hv').
      apply list_elem_of_bind in Hk as (a' & Hk & Ha').
      apply list_elem_of_singleton in Hk as ->.
      destruct (feasible_binary wb sol (s, v', a') Hf); [by apply elem_of_triples|lia..].
    + apply list_elem_of_bind. exists v. split; [|done].
      apply list_elem_of_bind. exists a. split; [|done]. by apply list_elem_of_singleton.
  - apply Is_true_false in E.
    rewrite (sum_over_ext _ _ (λ _, 0)); [apply sum_over_zero|].
    intros k Hk.
    apply list_elem_of_bind in Hk as (v & Hk & Hv).
    apply list_elem_of_bind in Hk as (a & Hk & Ha).
    apply list_elem_of_singleton in Hk as ->.
    destruct (feasible_binary wb sol (s, v, a) Hf) as [|H1]; [by apply elem_of_triples|done|].
    destruct E. apply assigned_spec. exists v, a. split_and!; [done..|].
    apply selected_values_of. lia.
Qed.

Lemma sum_over_indicator {A} (l : list A) (b : A → bool) :
  sum_over l (λ a, if b a then 1 else 0) = Z.of_nat (length (filter (λ a, b a) l)).
Proof.
  induction l as [|a l IH]; [done|]. rewrite filter_cons. simpl sum_over. rewrite IH.
  destruct (decide (b a)) as [E|E].
  - apply Is_true_true in E. rewrite E. simpl length. lia.
  - apply Is_true_false in E. rewrite E. lia.
Qed.

Lemma length_filter_complement {A} (l : list A) (b : A → bool) :
  (length (filter (λ a, b a) l) + length (filter (λ a, ¬ b a) l) = length l)%nat.
Proof.
  induction l as [|a l IH]; [done|]. rewrite !filter_cons.
  destruct (decide (b a)) as [E|E].
  - rewrite decide_False by tauto. simpl. lia.
  - rewrite decide_True by done. simpl. lia.
Qed.

(** The weight of a triple of the loop lies between -20 and 15. *)
Lemma satisfaction_range k :
  k ∈ triples wb → -20 ≤ satisfaction wb !!! k ≤ 15.
Proof.
  intros Hk. rewrite satisfaction_total by done.
  pose proof (student_points_values wb k.1.1 k.2).
  assert (-10 ≤ supervisor_points wb k.1.2 k.2 ≤ 5); [|lia].
  unfold supervisor_points. simpl. repeat case_match; lia.
Qed.

End ModelMore.

(** The assignment of the sample workbook with a shared first choice is an
    optimum. *)
Lemma sol_shared_optimal : optimal Samples.wb_shared Samples.sol_shared.
Proof.
  split; [split|].
  - apply in_bounds_iff. intros k _. unfold Samples.sol_shared.
    repeat case_decide; lia.
  - evaluate (constraints (prob Samples.wb_shared)).
    repeat constructor; vm_compute; done.
  - intros sol' [Hb Hc].
    assert (Forall (λ k, 0 ≤ sol' k ≤ 1) (triples Samples.wb_shared)) as Hall.
    { apply Forall_forall. apply in_bounds_iff, Hb. }
    replace (value Samples.sol_shared (objective (prob Samples.wb_shared)))
      with 15 by (by vm_compute).
    evaluate (triples Samples.wb_shared).
    evaluate (constraints (prob Samples.wb_shared)).
    evaluate (objective (prob Samples.wb_shared)).
    repeat (apply Forall_cons in Hall as [? Hall]).
    repeat (apply Forall_cons in Hc as [? Hc]).
    unfold holds, value in *. simpl in *. lia.
Qed.

(** X11: the model has a feasible solution exactly when no supervisor has a
    negative workload, and then the solution that selects nothing is
    feasible; a negative workload makes the model infeasible even when the
    sheet has no students. *)
Theorem model_feasible_iff_workloads_nonnegative (wb : workbook) :
  ((∃ sol, feasible wb sol) ↔ ∀ v, v ∈ supervisor_names wb → 0 ≤ workload wb !!! v)
  ∧ ((∀ v, v ∈ supervisor_names wb → 0 ≤ workload wb !!! v) → feasible wb sol_zero).
Proof.
  split; [split|]; [|intros Hw; exists sol_zero|]; try by apply sol_zero_feasible.
  intros [sol Hf] v Hv.
  pose proof Hf as [_ (_ & Hsup & _)%constraints_hold_iff].
  etrans; [|apply (Hsup v Hv)].
  apply sum_over_nonneg. intros s Hs. apply sum_over_nonneg. intros a Ha.
  destruct (feasible_binary wb sol (s, v, a) Hf); [by apply elem_of_triples|lia..].
Qed.

Lemma model_feasible_iff_workloads_nonnegative_witness :
  feasible Samples.wb_tiers sol_zero.
Proof.
  apply (proj2 (model_feasible_iff_workloads_nonnegative Samples.wb_tiers)).
  apply Forall_forall. compute_done.
Defined.

(** X12: a supervisor whose workload is 0 (or less) is in no selected triple
    of a feasible solution, whatever the preferences. *)
Theorem supervisor_without_capacity_gets_no_student
    (wb : workbook) (sol : key → Z) (v : string) (r : report) :
  feasible wb sol → v ∈ supervisor_names wb → workload wb !!! v ≤ 0 →
  post_solve wb (values_of sol) = Completed r →
  (∀ k, k ∈ assignments r → k.1.2 ≠ v) ∧ count wb (values_of sol) v = 0%nat.
Proof.
  intros Hf Hv Hw [= <-]. simpl.
  pose proof (supervisor_load_le_workload wb sol v Hf Hv) as Hload.
  split; [|lia].
  intros [[s v'] a] [Hsel Hk]%list_elem_of_filter Heq. simpl in Heq. subst v'.
  apply elem_of_triples in Hk as (Hs & _ & Ha).
  assert (count wb (values_of sol) v ≠ 0%nat); [|lia].
  unfold count. intros Hlen%nil_length_inv.
  assert ((s, v, a) ∈ filter (λ k, selected (values_of sol) k)
            (student ← student_names wb; area ← areas wb; [(student, v, area)])) as Hin.
  { apply list_elem_of_filter. split; [done|].
    apply list_elem_of_bind. exists s. split; [|done].
    apply list_elem_of_bind. exists a. split; [|done]. by apply list_elem_of_singleton. }
  rewrite Hlen in Hin. by apply elem_of_nil in Hin.
Qed.

Lemma supervisor_without_capacity_gets_no_student_witness :
  count Samples.wb_tiers (values_of sol_zero) "Prof. Lee" = 0%nat.
Proof.
  refine (proj2 (supervisor_without_capacity_gets_no_student
                   Samples.wb_tiers sol_zero "Prof. Lee" _ _ _ _ eq_refl)).
  - apply sol_zero_feasible. apply Forall_forall. compute_done.
  - compute_done.
  - compute_done.
Defined.

(** X13: what the constraint of step 9 gives on its own: in a feasible
    solution the weight of a selected triple is not -20, so its area has one
    of the first three ranks of the student's sequence or is in the
    supervisor's sequence. *)
Theorem feasible_selected_area_listed_by_one_side
    (wb : workbook) (sol : key → Z) (k : key) :
  feasible wb sol → k ∈ triples wb → selected (values_of sol) k →
  satisfaction wb !!! k ≠ -20
  ∧ ((∃ r, rank k.2 (student_preferences wb !!! k.1.1) = Some r ∧ (r < 3)%nat)
     ∨ k.2 ∈ supervisor_preferences wb !!! k.1.2).
Proof.
  intros [_ (_ & _ & Hprune)%constraints_hold_iff] Hk Hsel%selected_values_of.
  assert (satisfaction wb !!! k ≠ -20) as Hw.
  { intros Hw. specialize (Hprune k Hk Hw). lia. }
  split; [done|].
  destruct (decide (k.2 ∈ supervisor_preferences wb !!! k.1.2)) as [|Hno]; [by right|left].
  rewrite satisfaction_total in Hw by done.
  rewrite (supervisor_points_absent wb _ _ Hno), student_points_rank in Hw.
  destruct (rank k.2 (student_preferences wb !!! k.1.1)) as [[|[|[|r]]]|];
    simpl in Hw; try done; eexists; (split; [done|lia]).
Qed.

Lemma feasible_selected_area_listed_by_one_side_witness :
  satisfaction Samples.wb_shared !!! Samples.bob_lee ≠ -20.
Proof.
  refine (proj1 (feasible_selected_area_listed_by_one_side
                   Samples.wb_shared Samples.sol_shared Samples.bob_lee _ _ _)).
  - apply sol_shared_optimal.
  - compute_done.
  - compute_done.
Defined.

(** X14: a triple of the loop has a positive weight only if it is eligible,
    and then the weight is at least 6; every weight lies between -20 and
    15. *)
Theorem positive_weight_only_if_eligible (wb : workbook) (k : key) :
  k ∈ triples wb →
  -20 ≤ satisfaction wb !!! k ≤ 15
  ∧ (0 < satisfaction wb !!! k → eligible wb k ∧ 6 ≤ satisfaction wb !!! k).
Proof.
  intros Hk. split; [by apply satisfaction_range|].
  rewrite satisfaction_total by done. intros Hpos.
  pose proof (student_points_values wb k.1.1 k.2) as Hs.
  pose proof (supervisor_points_le wb k.1.2 k.2) as Hv.
  assert (k.2 ∈ student_preferences wb !!! k.1.1) as Hin_s.
  { destruct (decide (k.2 ∈ student_preferences wb !!! k.1.1)) as [|Hno]; [done|].
    apply student_points_absent in Hno. lia. }
  assert (k.2 ∈ supervisor_preferences wb !!! k.1.2) as Hin_v.
  { destruct (decide (k.2 ∈ supervisor_preferences wb !!! k.1.2)) as [|Hno]; [done|].
    apply supervisor_points_absent in Hno. lia. }
  split; [by split|].
  apply supervisor_points_present in Hin_v. lia.
Qed.

Lemma positive_weight_only_if_eligible_witness :
  eligible Samples.wb_shared Samples.alice_smith.
Proof.
  refine (proj1 (proj2 (positive_weight_only_if_eligible
                          Samples.wb_shared Samples.alice_smith _) _)); compute_done.
Defined.

(** ** The report, further *)

Section ReportMore.

Context (wb : workbook).
Implicit Types (sol : key → Z) (k : key) (vals : varValues).

Lemma student_tally_total vals c k :
  student_counts_total (student_tally wb vals c k)
  = (student_counts_total c + if selected vals k then 1 else 0)%nat.
Proof.
  destruct c as [[[c1 c2] c3] c4]. unfold student_tally, student_counts_total.
  destruct (selected vals k); simpl; repeat case_match; simplify_eq; lia.
Qed.

Lemma student_tally_score vals c k :
  student_counts_score (student_tally wb vals c k)
  = student_counts_score c + if selected vals k then student_points wb k.1.1 k.2 else 0.
Proof.
  destruct c as [[[c1 c2] c3] c4].
  unfold student_tally, student_counts_score, student_points.
  destruct (selected vals k); simpl; repeat case_match; simplify_eq; lia.
Qed.

Lemma supervisor_tally_total vals c k :
  supervisor_counts_total (supervisor_tally wb vals c k)
  = (supervisor_counts_total c + if selected vals k then 1 else 0)%nat.
Proof.
  destruct c as [[[[[c1 c2] c3] c4] c5] c6].
  unfold supervisor_tally, supervisor_counts_total.
  destruct (selected vals k); simpl; repeat case_match; simplify_eq; lia.
Qed.

Lemma supervisor_tally_score vals c k :
  supervisor_counts_score (supervisor_tally wb vals c k)
  = supervisor_counts_score c
    + if selected vals k then supervisor_points wb k.1.2 k.2 else 0.
Proof.
  destruct c as [[[[[c1 c2] c3] c4] c5] c6].
  unfold supervisor_tally, supervisor_counts_score, supervisor_points.
  destruct (selected vals k); simpl; repeat case_match; simplify_eq; lia.
Qed.

Lemma student_counts_foldl vals c (l : list key) :
  student_counts_total (foldl (student_tally wb vals) c l)
  = (student_counts_total c + length (filter (λ k, selected vals k) l))%nat
  ∧ student_counts_score (foldl (student_tally wb vals) c l)
    = student_counts_score c
      + foldr Z.add 0 ((λ k, student_points wb k.1.1 k.2)
                       <$> filter (λ k, selected vals k) l).
Proof.
  revert c. induction l as [|k l IH]; intros c; [simpl; split; lia|].
  cbn [foldl]. destruct (IH (student_tally wb vals c k)) as [-> ->].
  rewrite student_tally_total, student_tally_score, filter_cons.
  destruct (decide (selected vals k)) as [E|E].
  - apply Is_true_true in E. rewrite E, fmap_cons. cbn [length foldr]. split; lia.
  - apply Is_true_false in E. rewrite E. split; lia.
Qed.

Lemma supervisor_counts_foldl vals c (l : list key) :
  supervisor_counts_total (foldl (supervisor_tally wb vals) c l)
  = (supervisor_counts_total c + length (filter (λ k, selected vals k) l))%nat
  ∧ supervisor_counts_score (foldl (supervisor_tally wb vals) c l)
    = supervisor_counts_score c
      + foldr Z.add 0 ((λ k, supervisor_points wb k.1.2 k.2)
                       <$> filter (λ k, selected vals k) l).
Proof.
  revert c. induction l as [|k l IH]; intros c; [simpl; split; lia|].
  cbn [foldl]. destruct (IH (supervisor_tally wb vals c k)) as [-> ->].
  rewrite supervisor_tally_total, supervisor_tally_score, filter_cons.
  destruct (decide (selected vals k)) as [E|E].
  - apply Is_true_true in E. rewrite E, fmap_cons. cbn [length foldr]. split; lia.
  - apply Is_true_false in E. rewrite E. split; lia.
Qed.

Lemma foldr_add_split (f g h : key → Z) (l : list key) :
  (∀ k, k ∈ l → f k = g k + h k) →
  foldr Z.add 0 (f <$> l) = foldr Z.add 0 (g <$> l) + foldr Z.add 0 (h <$> l).
Proof.
  induction l as [|k l IH]; intros Hf; [done|].
  rewrite !fmap_cons. cbn [foldr]. rewrite IH, Hf by set_solver. lia.
Qed.

(** The counter [other] stays where it is while every selected triple has
    one of the student's first three areas. *)
Lemma student_other_foldl vals c (l : list key) :
  (∀ k, k ∈ l → selected vals k → student_points wb k.1.1 k.2 ≠ -10) →
  (foldl (student_tally wb vals) c l).2 = c.2.
Proof.
  revert c. induction l as [|k l IH]; intros c Hl; [done|].
  cbn [foldl]. rewrite IH by set_solver.
  assert (selected vals k → student_points wb k.1.1 k.2 ≠ -10) as Hk
    by (apply Hl; set_solver).
  destruct c as [[[c1 c2] c3] c4]. unfold student_tally, student_points in *.
  destruct (selected vals k); simpl in *; [|done].
  repeat case_match; try done. by destruct Hk.
Qed.

Lemma student_choice_None s a :
  student_choice wb s a = None ↔ student_points wb s a = -10.
Proof. unfold student_choice, student_points. simpl. repeat case_match; naive_solver. Qed.

Lemma student_choice_range s a c :
  student_choice wb s a = Some c → 1 ≤ c ≤ 3.
Proof. unfold student_choice. simpl. repeat case_match; naive_solver lia. Qed.

Lemma optimal_selected_student_points sol k :
  optimal wb sol → k ∈ triples wb → selected (values_of sol) k →
  student_points wb k.1.1 k.2 ≠ -10.
Proof.
  intros Hopt Hk Hsel%selected_values_of Hs.
  pose proof (optimal_selected_nonneg wb sol k Hopt Hk Hsel) as Hw.
  rewrite satisfaction_total, Hs in Hw by done.
  pose proof (supervisor_points_le wb k.1.2 k.2). lia.
Qed.

Lemma elem_of_assigned_students vals s :
  s ∈ assigned_students wb vals ↔ ∃ k, k ∈ triples wb ∧ selected vals k ∧ k.1.1 = s.
Proof.
  unfold assigned_students.
  assert (∀ (l : list key) (acc : gset string),
            s ∈ foldl (λ acc k, if selected vals k then {[k.1.1]} ∪ acc else acc) acc l
            ↔ s ∈ acc ∨ ∃ k, k ∈ l ∧ selected vals k ∧ k.1.1 = s) as Hfold.
  { induction l as [|k l IH]; intros acc; cbn [foldl].
    - split; [by left|]. intros [|(k & Hk%elem_of_nil & _)]; done.
    - rewrite IH. setoid_rewrite elem_of_cons.
      destruct (selected vals k) eqn:E.
      + rewrite elem_of_union, elem_of_singleton. split.
        * intros [[->|?]|(k' & ? & ? & ?)]; [right; exists k|by left|right; exists k'];
            rewrite ?E; naive_solver.
        * intros [?|(k' & [->|?] & ? & ?)]; [by left; right|by left; left|].
          right. by exists k'.
      + split.
        * intros [?|(k' & ? & ? & ?)]; [by left|right; exists k']. naive_solver.
        * intros [?|(k' & [->|?] & Hsel & ?)]; [by left| |right; by exists k'].
          by rewrite E in Hsel. }
  rewrite Hfold. split; [|by right]. intros [Hs|]; [|done]. by apply not_elem_of_empty in Hs.
Qed.

Lemma assigned_students_subseteq vals :
  assigned_students wb vals ⊆ list_to_set (student_names wb).
Proof.
  intros s ([[s' v] a] & Hk & _ & <-)%elem_of_assigned_students.
  apply elem_of_triples in Hk as (? & _). by apply elem_of_list_to_set.
Qed.

Lemma assigned_iff_assigned_students vals s :
  s ∈ student_names wb → assigned wb vals s ↔ s ∈ assigned_students wb vals.
Proof.
  intros Hs. rewrite assigned_spec, elem_of_assigned_students. split.
  - intros (v & a & Hv & Ha & Hsel). exists (s, v, a). split_and!; [|done..].
    by apply elem_of_triples.
  - intros ([[s' v] a] & Hk & Hsel & Heq). simpl in Heq. subst s'.
    apply elem_of_triples in Hk as (_ & ? & ?). eauto.
Qed.

Lemma size_list_to_set_NoDup `{Countable K} (l : list K) :
  size (list_to_set (C := gset K) l) = length l → NoDup l.
Proof.
  induction l as [|a l IH]; [constructor|].
  rewrite list_to_set_cons, size_union_alt, size_singleton. cbn [length]. intros Hsize.
  pose proof (size_list_to_set_le l) as Hle.
  assert (size (list_to_set (C := gset K) l ∖ {[a]}) ≤ size (list_to_set (C := gset K) l))%nat
    as Hsub by (apply subseteq_size; set_solver).
  apply NoDup_cons. split; [|apply IH; lia].
  intros Ha.
  assert (size (list_to_set (C := gset K) l ∖ {[a]}) < size (list_to_set (C := gset K) l))%nat;
    [|lia].
  apply subset_size. apply strict_spec_alt. split; [set_solver|].
  intros Heq. assert (a ∈ (list_to_set l : gset K)) as Hin by (by apply elem_of_list_to_set).
  rewrite <-Heq in Hin. set_solver.
Qed.

End ReportMore.

Section FilterFacts.

Context {A : Type} (P : A → Prop) `{∀ a, Decision (P a)}.

Lemma filter_none (l : list A) : (∀ a, a ∈ l → ¬ P a) ↔ filter P l = [].
Proof.
  split.
  - induction l as [|a l IH]; intros Hl; [done|].
    rewrite filter_cons, decide_False by (apply Hl; set_solver).
    apply IH. set_solver.
  - intros Hnil a Ha HP. by apply (filter_nil_not_elem_of P l a).
Qed.

Lemma filter_every (l : list A) : (∀ a, a ∈ l → P a) → filter P l = l.
Proof.
  induction l as [|a l IH]; intros Hl; [done|].
  rewrite filter_cons, decide_True by (apply Hl; set_solver).
  f_equal. apply IH. set_solver.
Qed.

End FilterFacts.

(** X15: in the report of a feasible solution no student is in two selected
    triples and no supervisor's count is above the workload printed next to
    it. *)
Theorem feasible_report_respects_capacities
    (wb : workbook) (sol : key → Z) (r : report) :
  feasible wb sol → post_solve wb (values_of sol) = Completed r →
  (∀ k1 k2, k1 ∈ assignments r → k2 ∈ assignments r → k1.1.1 = k2.1.1 → k1 = k2)
  ∧ (∀ v c w, (v, c, w) ∈ loads r → Z.of_nat c ≤ w).
Proof.
  intros Hf [= <-]. simpl. split.
  - intros k1 k2 [Hs1 Hk1]%list_elem_of_filter [Hs2 Hk2]%list_elem_of_filter.
    by apply (selected_student_unique wb sol).
  - intros v c w (v' & [= -> -> ->] & Hv)%list_elem_of_fmap.
    by apply supervisor_load_le_workload.
Qed.

Lemma feasible_report_respects_capacities_witness :
  ∃ r, post_solve Samples.wb_shared (values_of Samples.sol_shared) = Completed r
       ∧ ∀ v c w, (v, c, w) ∈ loads r → Z.of_nat c ≤ w.
Proof.
  eexists. split; [reflexivity|].
  refine (proj2 (feasible_report_respects_capacities
                   Samples.wb_shared Samples.sol_shared _ _ eq_refl)).
  apply sol_shared_optimal.
Defined.

(** X16: in the report of an optimum every selected triple has a weight of
    at least 0, so the total is at least 0; every row written to the sheet
    [matches] has a student choice 1, 2 or 3, never an empty one, and the
    counter [other] of the student check is 0. *)
Theorem optimum_report_has_only_ranked_student_choices
    (wb : workbook) (sol : key → Z) (r : report) :
  optimal wb sol → post_solve wb (values_of sol) = Completed r →
  (∀ k, k ∈ assignments r → 0 ≤ satisfaction wb !!! k)
  ∧ 0 ≤ total_satisfaction r
  ∧ (∀ row, row ∈ results r → ∃ c, m_student_choice row = Some c ∧ 1 ≤ c ≤ 3)
  ∧ (student_choice_counts wb (values_of sol)).2 = 0%nat.
Proof.
  intros Hopt [= <-]. simpl.
  assert (∀ k, k ∈ filter (λ k, selected (values_of sol) k) (triples wb) →
               0 ≤ satisfaction wb !!! k) as Hnonneg.
  { intros k [Hsel%selected_values_of Hk]%list_elem_of_filter.
    by apply (optimal_selected_nonneg wb sol). }
  split_and!.
  - done.
  - revert Hnonneg. generalize (filter (λ k, selected (values_of sol) k) (triples wb)).
    induction l as [|k l IH]; intros Hl; [done|]. rewrite fmap_cons. cbn [foldr].
    assert (0 ≤ satisfaction wb !!! k) by (apply Hl; set_solver).
    assert (0 ≤ foldr Z.add 0 ((λ k, satisfaction wb !!! k) <$> l)) by (apply IH; set_solver).
    lia.
  - intros row (k & -> & [Hsel Hk]%list_elem_of_filter)%list_elem_of_fmap. simpl.
    pose proof (optimal_selected_student_points wb sol k Hopt Hk Hsel) as Hs.
    destruct (student_choice wb k.1.1 k.2) as [c|] eqn:E.
    + exists c. split; [done|]. by eapply student_choice_range.
    + by apply student_choice_None in E.
  - unfold student_choice_counts. rewrite student_other_foldl; [done|].
    intros k Hk Hsel. by apply (optimal_selected_student_points wb sol).
Qed.

Lemma optimum_report_has_only_ranked_student_choices_witness :
  (student_choice_counts Samples.wb_shared (values_of Samples.sol_shared)).2 = 0%nat.
Proof.
  exact (proj2 (proj2 (proj2 (optimum_report_has_only_ranked_student_choices
                                Samples.wb_shared Samples.sol_shared _
                                sol_shared_optimal eq_refl)))).
Defined.

(** X17: in the report of a feasible solution the selected triples and the
    unmatched students add up to the students of the sheet, and the number
    of selected triples is at most the sum of the workloads. *)
Theorem matches_and_unmatched_add_up (wb : workbook) (sol : key → Z) (r : report) :
  feasible wb sol → post_solve wb (values_of sol) = Completed r →
  (length (assignments r) + length (unmatched r))%nat = length (student_names wb)
  ∧ Z.of_nat (length (assignments r))
    ≤ sum_over (supervisor_names wb) (λ v, workload wb !!! v).
Proof.
  intros Hf [= <-]. simpl.
  assert (Z.of_nat (length (filter (λ k, selected (values_of sol) k) (triples wb)))
          = sum_over (triples wb) sol) as Hlen.
  { apply length_filter_selected. intros k Hk. by apply (feasible_binary wb). }
  split.
  - apply Nat2Z.inj. rewrite Nat2Z.inj_add, Hlen.
    rewrite <-(length_filter_complement (student_names wb) (assigned wb (values_of sol))).
    rewrite Nat2Z.inj_add. f_equal.
    rewrite <-sum_over_indicator. unfold triples. rewrite sum_over_bind.
    apply sum_over_ext. intros s Hs. by apply student_sum_assigned.
  - rewrite Hlen, triples_sum_nested, sum_over_swap.
    apply sum_over_le. intros v Hv.
    destruct Hf as [_ (_ & Hsup & _)%constraints_hold_iff]. by apply Hsup.
Qed.

Lemma matches_and_unmatched_add_up_witness :
  ∃ r, post_solve Samples.wb_shared (values_of Samples.sol_shared) = Completed r
       ∧ (length (assignments r) + length (unmatched r))%nat
         = length (student_names Samples.wb_shared).
Proof.
  eexists. split; [reflexivity|].
  refine (proj1 (matches_and_unmatched_add_up
                   Samples.wb_shared Samples.sol_shared _ _ eq_refl)).
  apply sol_shared_optimal.
Defined.

(** X18: the list of supervisors with capacity holds a supervisor exactly
    when the count is below the workload, with the positive difference; in
    the report of a feasible solution a supervisor who is not listed has a
    count equal to the workload, and the list is empty (the script prints
    that all are at full capacity) exactly when every count equals the
    workload. *)
Theorem remaining_capacity_list (wb : workbook) :
  (∀ vals r v rem,
     post_solve wb vals = Completed r →
     (v, rem) ∈ supervisors_with_capacity r ↔
     v ∈ supervisor_names wb ∧ 0 < rem
     ∧ rem = workload wb !!! v - Z.of_nat (count wb vals v))
  ∧ (∀ sol r,
       feasible wb sol → post_solve wb (values_of sol) = Completed r →
       (∀ v, v ∈ supervisor_names wb →
             (∀ rem, (v, rem) ∉ supervisors_with_capacity r) →
             Z.of_nat (count wb (values_of sol) v) = workload wb !!! v)
       ∧ (supervisors_with_capacity r = [] ↔
          ∀ v, v ∈ supervisor_names wb →
               Z.of_nat (count wb (values_of sol) v) = workload wb !!! v)).
Proof.
  assert (∀ vals v rem,
            (v, rem) ∈ ((λ v, (v, workload wb !!! v - Z.of_nat (count wb vals v)))
                        <$> filter (λ v, Z.of_nat (count wb vals v) < workload wb !!! v)
                              (supervisor_names wb)) ↔
            v ∈ supervisor_names wb ∧ 0 < rem
            ∧ rem = workload wb !!! v - Z.of_nat (count wb vals v)) as Hlist.
  { intros vals v rem. rewrite list_elem_of_fmap. setoid_rewrite list_elem_of_filter.
    split.
    - intros (v' & [= -> ->] & Hlt & Hv). split_and!; [done|lia|done].
    - intros (Hv & Hpos & ->). exists v. split_and!; [done|lia|done]. }
  split.
  - intros vals r v rem [= <-]. simpl. apply Hlist.
  - intros sol r Hf [= <-]. simpl.
    assert (∀ v, v ∈ supervisor_names wb →
                 (∀ rem, (v, rem) ∉
                    ((λ v, (v, workload wb !!! v - Z.of_nat (count wb (values_of sol) v)))
                     <$> filter (λ v, Z.of_nat (count wb (values_of sol) v) < workload wb !!! v)
                           (supervisor_names wb))) →
                 Z.of_nat (count wb (values_of sol) v) = workload wb !!! v) as Hfull.
    { intros v Hv Hno.
      pose proof (supervisor_load_le_workload wb sol v Hf Hv) as Hle.
      destruct (decide (Z.of_nat (count wb (values_of sol) v) = workload wb !!! v))
        as [|Hne]; [done|].
      destruct (Hno (workload wb !!! v - Z.of_nat (count wb (values_of sol) v))).
      apply Hlist. split_and!; [done|lia|done]. }
    split; [exact Hfull|]. split.
    + intros Hnil v Hv. apply Hfull; [done|]. intros rem. rewrite Hnil. apply not_elem_of_nil.
    + intros Hall.
      assert (filter (λ v, Z.of_nat (count wb (values_of sol) v) < workload wb !!! v)
                (supervisor_names wb) = []) as ->; [|done].
      apply filter_none. intros v Hv. rewrite Hall by done. lia.
Qed.

Lemma remaining_capacity_list_witness :
  ∃ r, post_solve Samples.wb_shared (values_of Samples.sol_shared) = Completed r
       ∧ supervisors_with_capacity r = [].
Proof.
  eexists. split; [reflexivity|].
  apply (proj2 (proj2 (remaining_capacity_list Samples.wb_shared)
                  Samples.sol_shared _ (proj1 sol_shared_optimal) eq_refl)).
  apply Forall_forall. compute_done.
Defined.

(** X19: the two checks of realised choices count every selected triple
    once, and the recomputed total is the students' counters weighted by
    10, 7, 5, -10 plus the supervisors' counters weighted by 5, 4, 3, 2, 1,
    -10, whatever values the solver returned. *)
Theorem choice_counts_account_for_total (wb : workbook) (vals : varValues) (r : report) :
  post_solve wb vals = Completed r →
  student_counts_total (student_choice_counts wb vals) = length (assignments r)
  ∧ supervisor_counts_total (supervisor_choice_counts wb vals) = length (assignments r)
  ∧ total_satisfaction r
    = student_counts_score (student_choice_counts wb vals)
      + supervisor_counts_score (supervisor_choice_counts wb vals).
Proof.
  intros [= <-]. simpl. unfold student_choice_counts, supervisor_choice_counts.
  destruct (student_counts_foldl wb vals (0, 0, 0, 0)%nat (triples wb)) as [-> ->].
  destruct (supervisor_counts_foldl wb vals (0, 0, 0, 0, 0, 0)%nat (triples wb)) as [-> ->].
  split_and!; [done..|]. simpl.
  apply (foldr_add_split (λ k, satisfaction wb !!! k)).
  intros k [_ Hk]%list_elem_of_filter. by apply satisfaction_total.
Qed.

Lemma choice_counts_account_for_total_witness :
  ∃ r, post_solve Samples.wb_tiers Samples.vals_over = Completed r
       ∧ total_satisfaction r
         = student_counts_score (student_choice_counts Samples.wb_tiers Samples.vals_over)
           + supervisor_counts_score
               (supervisor_choice_counts Samples.wb_tiers Samples.vals_over).
Proof.
  eexists. split; [reflexivity|].
  exact (proj2 (proj2 (choice_counts_account_for_total
                         Samples.wb_tiers Samples.vals_over _ eq_refl))).
Defined.

(** X20: the line "All students matched" shows True exactly when the student
    names are distinct and the unmatched list is empty; with a name that
    occurs twice it shows False even when every student has a selected
    triple. *)
Theorem all_students_matched_iff (wb : workbook) (vals : varValues) (r : report) :
  post_solve wb vals = Completed r →
  all_students_matched wb vals ↔ NoDup (student_names wb) ∧ unmatched r = [].
Proof.
  intros [= <-]. simpl. unfold all_students_matched. rewrite bool_decide_spec.
  pose proof (assigned_students_subseteq wb vals) as Hsub.
  pose proof (size_list_to_set_le (student_names wb)) as Hle.
  pose proof (subseteq_size _ _ Hsub) as Hle'.
  split.
  - intros Hsize.
    assert (assigned_students wb vals = list_to_set (student_names wb)) as Heq.
    { apply set_subseteq_size_eq; [done|lia]. }
    split.
    + apply size_list_to_set_NoDup. rewrite <-Heq. done.
    + apply filter_none. intros s Hs Hno. apply Hno.
      apply assigned_iff_assigned_students; [done|]. rewrite Heq.
      by apply elem_of_list_to_set.
  - intros [Hnd Hnil]. rewrite <-(size_list_to_set (C := gset string)) by done. f_equal.
    apply set_eq. intros s. split; [apply Hsub|]. intros Hs%elem_of_list_to_set.
    apply assigned_iff_assigned_students; [done|].
    destruct (assigned wb vals s) eqn:E; [done|].
    apply Is_true_false in E.
    pose proof (proj2 (filter_none (λ s, ¬ assigned wb vals s) (student_names wb)) Hnil s Hs).
    tauto.
Qed.

Lemma all_students_matched_iff_witness :
  all_students_matched Samples.wb_shared (values_of Samples.sol_shared).
Proof.
  apply (proj2 (all_students_matched_iff Samples.wb_shared (values_of Samples.sol_shared)
                  _ eq_refl)).
  split; [compute_done|reflexivity].
Defined.

(** X21: when no supervisor row has a non-empty area cell (in particular
    when the supervisors' sheet is empty) the area set is empty, the model
    has no variable, and for any values the report has no selected triple,
    total 0 and every student in the unmatched list. *)
Theorem no_areas_no_matches (wb : workbook) (vals : varValues) (r : report) :
  (∀ row c, row ∈ supervisors wb → c ∈ area_cells row → c = CNull) →
  post_solve wb vals = Completed r →
  areas wb = [] ∧ x wb = ∅
  ∧ assignments r = [] ∧ results r = [] ∧ total_satisfaction r = 0
  ∧ unmatched r = student_names wb.
Proof.
  intros Hempty [= <-]. simpl.
  assert (areas wb = []) as Hareas.
  { destruct (areas wb) as [|a l] eqn:E; [done|].
    assert (a ∈ areas wb) as (row & Hrow & Ha)%elem_of_areas by (rewrite E; set_solver).
    apply elem_of_supervisor_row_prefs in Ha as (c & Hc & Hnn & _).
    destruct Hnn. by eapply Hempty. }
  assert (triples wb = []) as Htriples.
  { destruct (triples wb) as [|[[s v] a] l] eqn:E; [done|].
    assert ((s, v, a) ∈ triples wb) as (_ & _ & Ha)%elem_of_triples by (rewrite E; set_solver).
    rewrite Hareas in Ha. by apply elem_of_nil in Ha. }
  split_and!; [done| |by rewrite Htriples..|].
  - unfold x. by rewrite Htriples.
  - apply filter_every. intros s Hs (v & a & _ & Ha & _)%assigned_spec.
    rewrite Hareas in Ha. by apply elem_of_nil in Ha.
Qed.

Lemma no_areas_no_matches_witness :
  ∃ r, post_solve MoreSamples.wb_no_supervisor Samples.vals_over = Completed r
       ∧ unmatched r = ["Alice"].
Proof.
  eexists. split; [reflexivity|].
  refine (proj2 (proj2 (proj2 (proj2 (proj2 (no_areas_no_matches
            MoreSamples.wb_no_supervisor Samples.vals_over _ _ eq_refl)))))).
  intros row c Hrow. by apply elem_of_nil in Hrow.
Defined.

(** X22: the proposal columns are found by the exact prefix [proposal_]; when
    no column of the students' sheet starts with it, every student has an
    empty sequence and, in an optimum, no triple is selected: the total is 0
    and all students are in the unmatched list. *)
Theorem no_proposal_column_no_match (wb : workbook) (sol : key → Z) (r : report) :
  (∀ col, col ∈ columns (students wb) → ¬ String.prefix "proposal_" col) →
  optimal wb sol → post_solve wb (values_of sol) = Completed r →
  (∀ s, student_preferences wb !!! s = [])
  ∧ assignments r = [] ∧ total_satisfaction r = 0
  ∧ unmatched r = student_names wb.
Proof.
  intros Hcols Hopt [= <-]. simpl.
  assert (∀ s, student_preferences wb !!! s = []) as Hprefs.
  { intros s. rewrite lookup_total_alt.
    destruct (student_preferences wb !! s) as [prefs|] eqn:E; [|done]. simpl.
    apply dict_rows_lookup_inv in E as (row & _ & _ & ->).
    unfold student_row_prefs, student_area_cols.
    by rewrite (proj1 (filter_none _ (columns (students wb))) Hcols). }
  assert (filter (λ k, selected (values_of sol) k) (triples wb) = []) as Hnone.
  { apply filter_none. intros k Hk Hsel.
    apply (optimal_selected_student_points wb sol k Hopt Hk Hsel).
    apply student_points_absent. rewrite Hprefs. apply not_elem_of_nil. }
  split_and!; [done|done|by rewrite Hnone|].
  apply filter_every. intros s Hs (v & a & Hv & Ha & Hsel)%assigned_spec.
  assert ((s, v, a) ∈ filter (λ k, selected (values_of sol) k) (triples wb)) as Hin.
  { apply list_elem_of_filter. split; [done|]. by apply elem_of_triples. }
  rewrite Hnone in Hin. by apply elem_of_nil in Hin.
Qed.

(** Without a proposal column nothing is worth selecting. *)
Lemma sol_zero_optimal_capitalised :
  optimal MoreSamples.wb_capitalised sol_zero.
Proof.
  split.
  - apply sol_zero_feasible. apply Forall_forall. compute_done.
  - intros sol' [Hb _].
    pose proof (proj1 (in_bounds_iff _ _) Hb ("Alice", "Prof. Smith", CStr "tortlaw")) as Hk.
    evaluate (objective (prob MoreSamples.wb_capitalised)).
    unfold value, sol_zero. simpl.
    assert (("Alice", "Prof. Smith", CStr "tortlaw") ∈ triples MoreSamples.wb_capitalised)
      as Hin by compute_done.
    specialize (Hk Hin). lia.
Qed.

Lemma no_proposal_column_no_match_witness :
  ∃ r, post_solve MoreSamples.wb_capitalised (values_of sol_zero) = Completed r
       ∧ unmatched r = ["Alice"].
Proof.
  eexists. split; [reflexivity|].
  refine (proj2 (proj2 (proj2 (no_proposal_column_no_match
            MoreSamples.wb_capitalised sol_zero _ _ sol_zero_optimal_capitalised eq_refl)))).
  apply Forall_forall. compute_done.
Defined.
